(** * Lost-and-found application ([app.py]): embedding and verified properties

    The development follows the layout of the program:
    - [Py]:  the Python [str] builtins the handlers call
             ([strip], [replace], [split], [join], [in]);
    - [Sql]: the single [items] table and the three SQL statements that are
             run against it (exact-match [SELECT], [LIKE] search, [INSERT]);
    - [App]: the response parser and the three request handlers
             [report], [search] and [chat], written with explicit state
             passing over a [world] (table contents and the log of calls made
             to the completion service).

    Strings are lists of Unicode code points, as Python's [str] is. *)

From Stdlib Require Import String Ascii.
From Stdlib Require Import List NArith Bool Arith Lia Setoid Sorted.
Import ListNotations.

Set Implicit Arguments.

(* ------------------------------------------------------------------ *)
(** ** Python strings *)

Module Py.

Definition char := N.
Definition str := list char.

(** An ASCII literal of the source, as a list of code points. *)
Definition lit (s : string) : str := map N_of_ascii (list_ascii_of_string s).

Definition nl : char := 10%N.
Definition comma : char := 44%N.

Fixpoint str_eqb (a b : str) : bool :=
  match a, b with
  | [], [] => true
  | x :: a', y :: b' => N.eqb x y && str_eqb a' b'
  | _, _ => false
  end.

(** Truth value of a string: [if s:] / [not s]. *)
Definition truthy (s : str) : bool :=
  match s with [] => false | _ :: _ => true end.

(** The characters [str.strip()] removes: CPython's [Py_UNICODE_ISSPACE]. *)
Definition isspace (c : char) : bool :=
  ((9 <=? c) && (c <=? 13) || (28 <=? c) && (c <=? 32)
   || (c =? 133) || (c =? 160) || (c =? 5760)
   || (8192 <=? c) && (c <=? 8202)
   || (c =? 8232) || (c =? 8233) || (c =? 8239) || (c =? 8287)
   || (c =? 12288))%N.

Fixpoint lstrip (s : str) : str :=
  match s with
  | [] => []
  | c :: s' => if isspace c then lstrip s' else s
  end.

Definition rstrip (s : str) : str := rev (lstrip (rev s)).

(** [s.strip()] *)
Definition strip (s : str) : str := rstrip (lstrip s).

(** [s.startswith(p)] *)
Fixpoint startswith (p s : str) : bool :=
  match p, s with
  | [], _ => true
  | x :: p', y :: s' => N.eqb x y && startswith p' s'
  | _ :: _, [] => false
  end.

(** [p in s]: [p] occurs in [s] as a contiguous substring. *)
Fixpoint contains (p s : str) : bool :=
  startswith p s ||
  match s with
  | [] => false
  | _ :: s' => contains p s'
  end.

(** The left-to-right scan of [s.replace(old, new)] for a non-empty [old]:
    [skip] counts the characters of the current match that are still to be
    passed over. *)
Fixpoint replace_scan (old new : str) (skip : nat) (s : str) : str :=
  match s with
  | [] => []
  | c :: s' =>
      match skip with
      | S k => replace_scan old new k s'
      | O =>
          if startswith old s
          then new ++ replace_scan old new (length old - 1) s'
          else c :: replace_scan old new 0 s'
      end
  end.

(** [s.replace(old, new)]: every non-overlapping occurrence of [old], found
    from the left, is replaced by [new].  For an empty [old] Python puts
    [new] before every character and at the end. *)
Definition replace (old new : str) (s : str) : str :=
  match old with
  | [] => new ++ flat_map (fun c => c :: new) s
  | _ :: _ => replace_scan old new 0 s
  end.

(** [s.split(sep)] for a one-character separator; the result is never
    empty ([''.split(sep) == ['']]). *)
Fixpoint split (sep : char) (s : str) : list str :=
  match s with
  | [] => [[]]
  | c :: s' =>
      if N.eqb c sep then [] :: split sep s'
      else match split sep s' with
           | [] => [[c]]
           | h :: t => (c :: h) :: t
           end
  end.

(** [sep.join(parts)] *)
Fixpoint join (sep : str) (parts : list str) : str :=
  match parts with
  | [] => []
  | [p] => p
  | p :: rest => p ++ sep ++ join sep rest
  end.

End Py.
Import Py.

(* ------------------------------------------------------------------ *)
(** ** The [items] table and the SQL statements run against it *)

Module Sql.

(** Texts are stored and compared as they are given (the default [BINARY]
    collation).  The texts bound to a statement are taken to be encodable
    in UTF-8, as the texts of a form are. *)

(** One row of [items]; [id] is the [INTEGER PRIMARY KEY AUTOINCREMENT]. *)
Record item := Item {
  id : N;
  item_name : str;
  description : str;
  tags : str;
  location : str
}.

Definition table := list item.

Definition item_eqb (a b : item) : bool :=
  N.eqb (id a) (id b) && str_eqb (item_name a) (item_name b)
  && str_eqb (description a) (description b) && str_eqb (tags a) (tags b)
  && str_eqb (location a) (location b).

Definition percent : char := 37%N.
Definition underscore : char := 95%N.

(** [LIKE] folds the case of ASCII letters only. *)
Definition lower (c : char) : char :=
  if ((65 <=? c) && (c <=? 90))%N then (c + 32)%N else c.

(** [%]: the rest of the pattern matches some suffix of the text. *)
Fixpoint like_any (rest : str -> bool) (s : str) : bool :=
  rest s ||
  match s with
  | [] => false
  | _ :: s' => like_any rest s'
  end.

(** SQLite's [patternCompare] for [LIKE] without an [ESCAPE] character:
    [%] stands for any run of characters, [_] for any one character, every
    other character for itself up to ASCII case. *)
Fixpoint pattern_compare (pattern s : str) : bool :=
  match pattern with
  | [] => negb (truthy s)
  | c :: pattern' =>
      if N.eqb c percent then like_any (pattern_compare pattern') s
      else match s with
           | [] => false
           | d :: s' =>
               (N.eqb c underscore || N.eqb (lower c) (lower d))
               && pattern_compare pattern' s'
           end
  end.

(** SQLite reads the pattern and the text of a [LIKE] as C strings: up to
    their first U+0000. *)
Fixpoint c_string (s : str) : str :=
  match s with
  | [] => []
  | c :: s' => if N.eqb c 0 then [] else c :: c_string s'
  end.

(** Number of bytes of a text in UTF-8. *)
Definition utf8_width (c : char) : N :=
  if (c <? 128)%N then 1%N
  else if (c <? 2048)%N then 2%N
  else if (c <? 65536)%N then 3%N
  else 4%N.

Definition utf8_length (s : str) : N :=
  fold_right (fun c n => (utf8_width c + n)%N) 0%N s.

(** [SQLITE_MAX_LIKE_PATTERN_LENGTH]: a longer pattern makes the [LIKE]
    raise [LIKE or GLOB pattern too complex]. *)
Definition like_pattern_limit : N := 50000%N.

Definition too_complex (pattern : str) : bool :=
  (like_pattern_limit <? utf8_length pattern)%N.

(** The value of [s LIKE pattern] when it does not raise, that is, when
    the pattern is not [too_complex]. *)
Definition like (pattern s : str) : bool :=
  pattern_compare (c_string pattern) (c_string s).

(** [WHERE item_name = ? AND location = ? AND description = ?] *)
Definition same_triple (n l d : str) (r : item) : bool :=
  str_eqb (item_name r) n && str_eqb (location r) l
  && str_eqb (description r) d.

(** [SELECT * FROM items WHERE ... = ? AND ...], then [fetchone()]. *)
Definition select_existing (t : table) (n l d : str) : option item :=
  find (same_triple n l d) t.

(** [WHERE item_name LIKE ? OR description LIKE ? OR tags LIKE ?
    OR location LIKE ?], all four parameters being [pattern]. *)
Definition like_row (pattern : str) (r : item) : bool :=
  like pattern (item_name r) || like pattern (description r)
  || like pattern (tags r) || like pattern (location r).

(** The [SELECT ... WHERE ... LIKE ...] raises as soon as the [LIKE] is
    evaluated, on the first row, with a pattern that is too long; on an
    empty table nothing is evaluated. *)
Definition select_like_raises (t : table) (pattern : str) : bool :=
  match t with
  | [] => false
  | _ :: _ => too_complex pattern
  end.

(** [SELECT * FROM items WHERE ... LIKE ...], then [fetchall()]: the rows
    that are returned when the statement does not raise. *)
Definition select_like (t : table) (pattern : str) : list item :=
  filter (like_row pattern) t.

(** [SELECT DISTINCT]: a row equal to an earlier one is dropped. *)
Fixpoint distinct (rows : list item) : list item :=
  match rows with
  | [] => []
  | r :: rest => r :: filter (fun x => negb (item_eqb r x)) (distinct rest)
  end.

(** The key [AUTOINCREMENT] gives the next row: rows are never deleted, so
    it is one more than the largest key in the table. *)
Definition next_id (t : table) : N :=
  (fold_right N.max 0 (map id t) + 1)%N.

(** [INSERT INTO items (item_name, description, tags, location)
    VALUES (?, ?, ?, ?)] *)
Definition insert (t : table) (n d tg l : str) : table :=
  t ++ [Item (next_id t) n d tg l].

End Sql.
Import Sql.

(* ------------------------------------------------------------------ *)
(** ** The application *)

Module App.

Inductive method := GET | POST.

(** What the handlers read of a request: the method, the form fields and
    the [X-Requested-With] header. *)
Record request := Request {
  req_method : method;
  form : list (str * str);
  x_requested_with : option str
}.

(** [request.form.get(key, default)] *)
Fixpoint form_get (key default : str) (f : list (str * str)) : str :=
  match f with
  | [] => default
  | (k, v) :: f' => if str_eqb k key then v else form_get key default f'
  end.

(** [request.form.get(name, "").strip()] *)
Definition field (name : string) (rq : request) : str :=
  strip (form_get (lit name) [] (form rq)).

Inductive context :=
| NoContext
| Results (results : list item)
| Reply (reply : str).

Inductive response :=
| Body (text : str)
| Redirect (target : str)
| Render (template : str) (ctx : context).

(** A message sent to the completion service. *)
Record chat_message := Message { role : str; content : str }.

(** What a [try] block around [client.chat.completions.create(...)] and the
    access to [response.choices[0].message.content] ends with: the content,
    or the text [str(e)] of the exception that was raised. *)
Inductive outcome :=
| Returned (text : str)
| Raised (error : str).

(** The outside world during one request: the completion service, and
    whether the [INSERT] raises ([Some] of the error text). *)
Record env := Env {
  complete : list chat_message -> outcome;
  insert_error : option str
}.

(** The table, and the calls made to the completion service so far (every
    call is for model [llama-3.1-8b-instant]). *)
Record world := World {
  items : table;
  llm_log : list (list chat_message)
}.

Definition call_logged (w : world) (messages : list chat_message) : world :=
  World (items w) (llm_log w ++ [messages]).

(** Lines 63-78: the prompt, an f-string. *)
Definition build_prompt (item_name keywords : str) : str :=
  [nl] ++ lit "Generate:" ++
  [nl] ++ lit "1) A detailed searchable description" ++
  [nl] ++ lit "2) 5 short tags (comma separated)" ++
  [nl] ++
  [nl] ++ lit "Item Name: " ++ item_name ++
  [nl] ++ lit "Keywords: " ++ keywords ++
  [nl] ++
  [nl] ++ lit "Format exactly like this:" ++
  [nl] ++
  [nl] ++ lit "Description:" ++
  [nl] ++ lit "<text>" ++
  [nl] ++
  [nl] ++ lit "Tags:" ++
  [nl] ++ lit "tag1, tag2, tag3, tag4, tag5" ++
  [nl].

(** Line 103: [if "," in line and len(line.split(",")) >= 3]. *)
Definition is_tag_line (line : str) : bool :=
  contains (lit ",") line && (3 <=? length (split comma line)).

(** Lines 101-106: the loop over the lines, with its two variables. *)
Fixpoint classify (lines : list str) (description_lines : list str)
    (tag_line : str) : list str * str :=
  match lines with
  | [] => (description_lines, tag_line)
  | line :: rest =>
      let line := strip line in
      if is_tag_line line
      then classify rest description_lines line
      else classify rest (description_lines ++ [line]) tag_line
  end.

(** Line 95 *)
Definition clean_text (ai_text : str) : str :=
  replace (lit "Tags:") [] (replace (lit "Description:") [] ai_text).

(** Line 96: the lines the loop runs over. *)
Definition response_lines (ai_text : str) : list str :=
  split nl (strip (clean_text ai_text)).

(** Lines 94-109: the response parser, giving [(description, tags)].  None
    of the string operations in the [try] block raises on a [str], so the
    [except] branch of lines 111-113 is never taken. *)
Definition parse_response (ai_text : str) : str * str :=
  let lines := response_lines ai_text in
  let '(description_lines, tag_line) := classify lines [] [] in
  let description := strip (join (lit " ") description_lines) in
  let tags := if truthy tag_line then strip tag_line
              else lit "AI generated" in
  (description, tags).

(** Line 83: the messages of the report's call to the service. *)
Definition report_messages (item_name keywords : str) : list chat_message :=
  [Message (lit "user") (build_prompt item_name keywords)].

(** [/report] *)
Definition report (e : env) (rq : request) (w : world) : response * world :=
  match req_method rq with
  | GET => (Render (lit "report.html") NoContext, w)
  | POST =>
      let item_name := field "item_name" rq in
      let keywords := field "keywords" rq in
      let location := field "location" rq in
      if negb (truthy item_name) || negb (truthy keywords)
         || negb (truthy location)
      then (Body (lit "All fields are required."), w)
      else
        let messages := report_messages item_name keywords in
        let w := call_logged w messages in
        match complete e messages with
        | Raised error => (Body (lit "Groq API Error: " ++ error), w)
        | Returned text =>
            let ai_text := strip text in
            let '(description, tags) := parse_response ai_text in
            match select_existing (items w) item_name location description with
            | Some _ => (Body (lit "Item already exists in database."), w)
            | None =>
                match insert_error e with
                | Some error => (Body (lit "Database Error: " ++ error), w)
                | None =>
                    (Redirect (lit "/search"),
                     World (insert (items w) item_name description tags location)
                           (llm_log w))
                end
            end
        end
  end.

(** The parameter [f"%{query}%"] of the [LIKE]s. *)
Definition like_pattern (query : str) : str := [percent] ++ query ++ [percent].

(** The [SELECT] of a search raises; nothing catches the exception and
    the request fails, the world being left as it was. *)
Definition search_raises (rq : request) (w : world) : bool :=
  match req_method rq with
  | GET => false
  | POST =>
      let query := field "query" rq in
      truthy query && select_like_raises (items w) (like_pattern query)
  end.

(** [/search], when its [SELECT] does not raise. *)
Definition search (rq : request) (w : world) : response * world :=
  let results :=
    match req_method rq with
    | GET => []
    | POST =>
        let query := field "query" rq in
        if truthy query
        then distinct (select_like (items w) (like_pattern query))
        else []
    end in
  (Render (lit "search.html") (Results results), w).

(** The magnifying-glass sign U+1F50D that opens the reply of line 189. *)
Definition found_header : str :=
  [128269%N] ++ lit " I found matching items:<br><br>".

(** Line 191 *)
Definition found_line (r : item) : str :=
  lit "<b>" ++ item_name r ++ lit "</b> - " ++ location r ++ lit "<br>".

Definition persona : chat_message :=
  Message (lit "system") (lit "You are a helpful lost and found assistant.").

(** Lines 196-199: the messages of the chat's call to the service. *)
Definition chat_messages (user_message : str) : list chat_message :=
  [persona; Message (lit "user") user_message].


(** Lines 172-205: the reply to a posted message, when the [SELECT] does
    not raise. *)
Definition chat_reply (e : env) (rq : request) (w : world) : str * world :=
  let user_message := field "message" rq in
  if truthy user_message then
    let found := select_like (items w) (like_pattern user_message) in
    match found with
    | _ :: _ =>
        (fold_left (fun reply r => reply ++ found_line r) found found_header, w)
    | [] =>
        let messages := chat_messages user_message in
        let w := call_logged w messages in
        match complete e messages with
        | Returned text => (text, w)
        | Raised error => (lit "AI Error: " ++ error, w)
        end
    end
  else ([], w).

(** [/chat] *)
Definition chat (e : env) (rq : request) (w : world) : response * world :=
  match req_method rq with
  | GET => (Render (lit "chatbot.html") (Reply []), w)
  | POST =>
      let '(reply, w) := chat_reply e rq w in
      match x_requested_with rq with
      | Some v =>
          if str_eqb v (lit "XMLHttpRequest") then (Body reply, w)
          else (Render (lit "chatbot.html") (Reply reply), w)
      | None => (Render (lit "chatbot.html") (Reply reply), w)
      end
  end.

(** [/] *)
Definition index (w : world) : response * world :=
  (Render (lit "index.html") NoContext, w).

Inductive route := RIndex | RReport | RSearch | RChat.

(** One request served to completion. *)
Definition handle (e : env) (rt : route) (rq : request) (w : world)
  : response * world :=
  match rt with
  | RIndex => index w
  | RReport => report e rq w
  | RSearch => search rq w
  | RChat => chat e rq w
  end.

(** The table is created empty ([init_db]). *)
Definition initial : world := World [] [].

(** Requests served one after the other. *)
Fixpoint serve (reqs : list (env * route * request)) (w : world) : world :=
  match reqs with
  | [] => w
  | (e, rt, rq) :: rest => serve rest (snd (handle e rt rq w))
  end.

End App.
Import App.

(* ------------------------------------------------------------------ *)
(** ** Vocabulary of the specification *)

Module Spec.

(** Number of comma characters of a line. *)
Definition commas (line : str) : nat := length (filter (N.eqb comma) line).

(** The lines of a text: the pieces between its line feeds. *)
Definition lines_of (text : str) : list str := split nl text.

(** The line has at least two commas. *)
Definition qualifies (line : str) : bool := 2 <=? commas line.

(** The lines that qualify as tag lines, and the others. *)
Definition tag_lines (ls : list str) : list str := filter qualifies ls.
Definition prose_lines (ls : list str) : list str :=
  filter (fun l => negb (qualifies l)) ls.

(** What the parser makes of lines that are already trimmed. *)
Definition digest (ls : list str) : str * str :=
  (strip (join (lit " ") (prose_lines ls)),
   match tag_lines ls with
   | [] => lit "AI generated"
   | _ :: _ => last (tag_lines ls) []
   end).

(** A line with the header labels removed and then trimmed. *)
Definition tidy (line : str) : str := strip (clean_text line).





(** A comma-separated list of exactly five fields. *)
Definition five_fields (s : str) : bool :=
  Nat.eqb (length (split comma s)) 5.

(** The triple the duplicate check compares. *)
Definition triple (r : item) : str * str * str :=
  (item_name r, location r, description r).

(** A world the application can be in: the initial one after some
    requests served in sequence. *)
Definition reachable (w : world) : Prop :=
  exists reqs, w = serve reqs initial.

(** The reply of the chat handler that lists the rows [found]. *)
Definition listing (found : list item) : str :=
  found_header ++ concat (map found_line found).

(** Empty or made of white space only. *)
Definition blank (s : str) : bool := forallb isspace s.

(** The value of a form field as it was posted. *)
Definition raw_field (name : string) (rq : request) : str :=
  form_get (lit name) [] (form rq).

(** The rows a search response shows. *)
Definition search_results (rq : request) (w : world) : list item :=
  match fst (search rq w) with
  | Render _ (Results rs) => rs
  | _ => []
  end.

(** The reply a chat response carries, as a body or in the page. *)
Definition reply_of (r : response) : str :=
  match r with
  | Body reply => reply
  | Render _ (Reply reply) => reply
  | _ => []
  end.

(** What line 202 or line 205 makes of the outcome of the call. *)
Definition relayed (o : outcome) : str :=
  match o with
  | Returned text => text
  | Raised error => lit "AI Error: " ++ error
  end.

(** The completion of the end-to-end example. *)
Definition example_completion : str :=
  lit "Description:" ++ [nl] ++
  lit "A blue backpack found near the library." ++ [nl] ++ [nl] ++
  lit "Tags:" ++ [nl] ++
  lit "backpack, blue, library, lost, bag".

(** The request of the end-to-end example, and a service that answers
    it as in the example. *)
Definition example_request : request :=
  Request POST
    [(lit "item_name", lit "Blue Backpack");
     (lit "keywords", lit "left, near library");
     (lit "location", lit "Main Hall")] None.

Definition example_env : env :=
  Env (fun _ => Returned example_completion) None.

Definition example_item : item :=
  Item 1 (lit "Blue Backpack")
    (lit "A blue backpack found near the library.")
    (lit "backpack, blue, library, lost, bag")
    (lit "Main Hall").

(** A report of a key ring, and a service that answers with three tags. *)
Definition keys_request : request :=
  Request POST
    [(lit "item_name", lit "Keys");
     (lit "keywords", lit "ring, metal");
     (lit "location", lit "Gym")] None.

Definition keys_env : env :=
  Env (fun _ => Returned (lit "Description:" ++ [nl] ++ lit "A set of keys."
                          ++ [nl] ++ [nl] ++ lit "Tags:" ++ [nl]
                          ++ lit "keys, ring, metal")) None.

(** A table that holds the row of the example, a search for [b_g] and a
    chat message that is empty. *)
Definition example_world : world := World [example_item] [].






(** No proper suffix of [p] is a prefix of [p]: two occurrences of [p] in
    a text never overlap. *)
Definition unbordered (p : str) : bool :=
  forallb (fun d => negb (startswith (skipn d p) p)) (seq 1 (length p - 1)).

(** *** The statements of the specification that the code does not meet,
    word for word *)

(** The one line with two commas or more becomes [tags] as it is, and the
    other lines, joined by single spaces, become [description]. *)
Definition one_tag_line_verbatim (t : str) : Prop :=
  forall pre q post,
    lines_of t = pre ++ q :: post ->
    qualifies q = true ->
    (forall l, In l (pre ++ post) -> commas l <= 1) ->
    parse_response t = (join (lit " ") (pre ++ post), q).

(** Without a line of two commas or more, [tags] is the fallback and
    [description] is the lines of the text joined by single spaces. *)
Definition no_tag_line_verbatim (t : str) : Prop :=
  (forall l, In l (lines_of t) -> commas l <= 1) ->
  parse_response t = (join (lit " ") (lines_of t), lit "AI generated").

(** The text holds neither header label. *)
Definition label_free (t : str) : bool :=
  negb (contains (lit "Description:") t) && negb (contains (lit "Tags:") t).











(** Every stored [tags] is a list of exactly five comma-separated words
    or the fallback marker. *)
Definition tags_five_or_fallback (w : world) : Prop :=
  forall r, In r (items w) ->
    five_fields (tags r) = true \/ tags r = lit "AI generated".

(** No two rows of the table share the triple. *)
Definition no_duplicate_triples (w : world) : Prop :=
  NoDup (map triple (items w)).

(** The tags of [r] are the fallback marker, or a line of two commas or
    more of a completion returned to one of the reports [reqs], with the
    header labels removed and trimmed. *)
Definition tags_from_completion (reqs : list (env * route * request))
    (r : item) : Prop :=
  tags r = lit "AI generated" \/
  exists e rq text line,
    In (e, RReport, rq) reqs /\
    complete e (report_messages (field "item_name" rq) (field "keywords" rq))
      = Returned text /\
    In line (lines_of (strip text)) /\
    qualifies line = true /\
    tags r = tidy line.

End Spec.
Import Spec.

(* ------------------------------------------------------------------ *)
(** ** Vocabulary of the further properties *)

Module Props.

(** The keys of the rows grow along the table. *)
Definition keys_ascending (t : table) : Prop :=
  StronglySorted N.lt (map id t).

(** The text has no line feed. *)
Definition one_line (s : str) : Prop := ~ In nl s.

(** The text has no white space at either end. *)
Definition trimmed (s : str) : Prop := strip s = s.

(** What every row written by the report handler looks like. *)
Definition well_kept (r : item) : Prop :=
  (item_name r <> [] /\ trimmed (item_name r))
  /\ (location r <> [] /\ trimmed (location r))
  /\ (trimmed (description r) /\ one_line (description r))
  /\ (tags r <> [] /\ trimmed (tags r) /\ one_line (tags r)).

(** A completion in the format the prompt asks for. *)
Definition formatted (d g : str) : str :=
  lit "Description:" ++ [nl] ++ d ++ [nl; nl] ++ lit "Tags:" ++ [nl] ++ g.


(** The row a report that goes through adds to the table [t]. *)
Definition new_row (t : table) (rq : request) (text : str) : item :=
  Item (next_id t) (field "item_name" rq)
       (fst (parse_response (strip text)))
       (snd (parse_response (strip text)))
       (field "location" rq).

(** The call a filled-in report makes. *)
Definition report_call (rq : request) : list chat_message :=
  report_messages (field "item_name" rq) (field "keywords" rq).

(** A service that fails, and a database that refuses the insert. *)
Definition failing_env : env := Env (fun _ => Raised (lit "timeout")) None.

Definition locked_env : env :=
  Env (fun _ => Returned example_completion) (Some (lit "database is locked")).

Definition name_query_request : request :=
  Request POST [(lit "query", lit "Blue Backpack")] None.

Definition name_message_request : request :=
  Request POST [(lit "message", lit "Blue Backpack")] None.


Definition lower_request : request :=
  Request POST [(lit "query", lit "main hall")] None.

Definition upper_request : request :=
  Request POST [(lit "query", lit "MAIN HALL")] None.

Definition xhr_request : request :=
  Request POST [(lit "message", lit "backpack")] (Some (lit "XMLHttpRequest")).

Definition page_request : request :=
  Request POST [(lit "message", lit "backpack")] (Some (lit "xmlhttprequest")).



End Props.
Import Props.

(* ------------------------------------------------------------------ *)
(** ** The definitions on small inputs *)

Example replace_is_one_pass :
  replace (lit "Tags:") [] (lit "TaTags:gs: a Tags:b") = lit "Tags: a b".
Proof. reflexivity. Qed.

Example replace_empty_old : replace [] (lit "-") (lit "ab") = lit "-a-b-".
Proof. reflexivity. Qed.

Example split_keeps_empty_fields :
  split comma (lit "a,b,,c") = [lit "a"; lit "b"; []; lit "c"].
Proof. reflexivity. Qed.

Example split_of_empty : split nl [] = [[]].
Proof. reflexivity. Qed.

Example join_keeps_empty_parts :
  join (lit " ") [lit "a"; []; lit "b"] = lit "a  b".
Proof. reflexivity. Qed.

Example strip_both_ends : strip ([9; 32] ++ lit "a b" ++ [160; 10])%N = lit "a b".
Proof. reflexivity. Qed.

Example like_folds_ascii_case :
  like (like_pattern (lit "BACK")) (lit "Blue Backpack") = true.
Proof. reflexivity. Qed.

Example like_underscore_is_a_wildcard :
  like (like_pattern (lit "b_g")) (lit "lost, bag") = true
  /\ contains (lit "b_g") (lit "lost, bag") = false.
Proof. split; reflexivity. Qed.

Example response_lines_of_the_example :
  response_lines example_completion =
  [lit "A blue backpack found near the library."; []; [];
   lit "backpack, blue, library, lost, bag"].
Proof. reflexivity. Qed.

Example a_label_can_be_left_by_joining :
  clean_text (lit "TTags:ags:") = lit "Tags:".
Proof. reflexivity. Qed.

Example first_key_is_one : next_id [] = 1%N.
Proof. reflexivity. Qed.

(* ------------------------------------------------------------------ *)
(** ** Facts about the string builtins *)

Section StringFacts.

Lemma str_eqb_refl (a : str) : str_eqb a a = true.
Proof.
  induction a as [|x a IH]; simpl; [reflexivity|].
  now rewrite N.eqb_refl, IH.
Qed.

Lemma str_eqb_eq (a b : str) : str_eqb a b = true <-> a = b.
Proof.
  split.
  - revert b; induction a as [|x a IH]; intros [|y b]; simpl; try discriminate; auto.
    intros H. apply andb_true_iff in H as [Hx Hr].
    apply N.eqb_eq in Hx. f_equal; auto.
  - intros ->. apply str_eqb_refl.
Qed.

Lemma str_eqb_neq (a b : str) : str_eqb a b = false <-> a <> b.
Proof.
  rewrite <- str_eqb_eq. destruct (str_eqb a b); split; congruence.
Qed.

Lemma startswith_app (p s : str) : startswith p (p ++ s) = true.
Proof.
  induction p as [|x p IH]; simpl; [now destruct s|].
  now rewrite N.eqb_refl.
Qed.

Lemma startswith_inv (p s : str) :
  startswith p s = true -> s = p ++ skipn (length p) s.
Proof.
  revert s; induction p as [|x p IH]; intros [|y s]; simpl; try discriminate; auto.
  intros H. apply andb_true_iff in H as [Hx Hr].
  apply N.eqb_eq in Hx. subst y. f_equal. auto.
Qed.

Lemma startswith_weaken (p a b : str) :
  startswith p a = true -> startswith p (a ++ b) = true.
Proof.
  intros H. rewrite (startswith_inv _ _ H), <- app_assoc.
  apply startswith_app.
Qed.

Lemma startswith_length (p s : str) :
  startswith p s = true -> length p <= length s.
Proof.
  intros H. rewrite (startswith_inv _ _ H), length_app. lia.
Qed.

Lemma replace_scan_skip (old new : str) (k : nat) (s : str) :
  replace_scan old new k s = replace_scan old new 0 (skipn k s).
Proof.
  revert k; induction s as [|c s IH]; intros [|k]; try reflexivity.
  simpl replace_scan at 1. rewrite IH. reflexivity.
Qed.

Lemma replace_nil (old new : str) : old <> [] -> replace old new [] = [].
Proof. destruct old; [congruence | reflexivity]. Qed.

(** The scan, one step at a time. *)
Lemma replace_cons (old new : str) (c : char) (s : str) :
  old <> [] ->
  replace old new (c :: s) =
  if startswith old (c :: s)
  then new ++ replace old new (skipn (length old) (c :: s))
  else c :: replace old new s.
Proof.
  destruct old as [|o old]; [congruence|]. intros _.
  unfold replace.
  change (replace_scan (o :: old) new 0 (c :: s))
    with (if startswith (o :: old) (c :: s)
          then new ++ replace_scan (o :: old) new (length (o :: old) - 1) s
          else c :: replace_scan (o :: old) new 0 s).
  destruct (startswith (o :: old) (c :: s)); [|reflexivity].
  rewrite replace_scan_skip. simpl length. simpl skipn.
  now rewrite Nat.sub_0_r.
Qed.

Lemma replace_match (old new s : str) :
  old <> [] -> replace old new (old ++ s) = new ++ replace old new s.
Proof.
  intros Hne. destruct old as [|o old]; [congruence|].
  change ((o :: old) ++ s) with (o :: (old ++ s)).
  rewrite replace_cons by assumption.
  change (o :: old ++ s) with ((o :: old) ++ s).
  rewrite startswith_app, skipn_app, skipn_all, Nat.sub_diag.
  reflexivity.
Qed.

Lemma replace_step (old new : str) (c : char) (s : str) :
  old <> [] -> startswith old (c :: s) = false ->
  replace old new (c :: s) = c :: replace old new s.
Proof. intros Hne H. now rewrite replace_cons, H. Qed.

(** *** Trimming *)

Lemma rstrip_nil : rstrip [] = [].
Proof. reflexivity. Qed.

Lemma lstrip_snoc (a : str) (c : char) :
  lstrip (a ++ [c]) =
  match lstrip a with
  | [] => if isspace c then [] else [c]
  | _ :: _ => lstrip a ++ [c]
  end.
Proof.
  induction a as [|x a IH]; simpl.
  - destruct (isspace c); reflexivity.
  - destruct (isspace x); [exact IH | reflexivity].
Qed.

(** [rstrip], read from the left. *)
Lemma rstrip_cons (c : char) (r : str) :
  rstrip (c :: r) =
  match rstrip r with
  | [] => if isspace c then [] else [c]
  | _ :: _ => c :: rstrip r
  end.
Proof.
  unfold rstrip. simpl rev. rewrite lstrip_snoc.
  destruct (lstrip (rev r)) as [|x l] eqn:E; simpl rev.
  - destruct (isspace c); reflexivity.
  - destruct (rev l ++ [x]) as [|y t] eqn:E'.
    + now apply app_eq_nil in E' as [_ ?].
    + rewrite <- E', rev_unit. reflexivity.
Qed.

Lemma rstrip_nonspace_cons (c : char) (r : str) :
  isspace c = false -> rstrip (c :: r) = c :: rstrip r.
Proof.
  intros H. rewrite rstrip_cons, H. now destruct (rstrip r).
Qed.

Lemma lstrip_idem (s : str) : lstrip (lstrip s) = lstrip s.
Proof.
  induction s as [|c s IH]; simpl; [reflexivity|].
  destruct (isspace c) eqn:E; [exact IH|]. simpl. now rewrite E.
Qed.

Lemma rstrip_idem (s : str) : rstrip (rstrip s) = rstrip s.
Proof. unfold rstrip. now rewrite rev_involutive, lstrip_idem. Qed.

Lemma lstrip_rstrip (s : str) : lstrip (rstrip s) = rstrip (lstrip s).
Proof.
  induction s as [|c s IH]; [reflexivity|].
  simpl lstrip at 2. destruct (isspace c) eqn:E.
  - rewrite <- IH, rstrip_cons, E.
    destruct (rstrip s); [reflexivity|]. simpl. now rewrite E.
  - rewrite rstrip_nonspace_cons by assumption. simpl. now rewrite E.
Qed.

Lemma strip_idem (s : str) : strip (strip s) = strip s.
Proof.
  unfold strip. now rewrite <- lstrip_rstrip, rstrip_idem, lstrip_rstrip, lstrip_idem.
Qed.

Lemma strip_nil : strip [] = [].
Proof. reflexivity. Qed.

Lemma strip_space_cons (c : char) (s : str) :
  isspace c = true -> strip (c :: s) = strip s.
Proof. intros H. unfold strip. simpl. now rewrite H. Qed.

Lemma strip_nonspace_cons (c : char) (s : str) :
  isspace c = false -> strip (c :: s) = c :: rstrip s.
Proof.
  intros H. unfold strip. simpl. rewrite H.
  now apply rstrip_nonspace_cons.
Qed.

Lemma rstrip_space_snoc (c : char) (s : str) :
  isspace c = true -> rstrip (s ++ [c]) = rstrip s.
Proof.
  intros H. unfold rstrip. rewrite rev_unit. simpl. now rewrite H.
Qed.

Lemma strip_space_snoc (c : char) (s : str) :
  isspace c = true -> strip (s ++ [c]) = strip s.
Proof.
  intros H. unfold strip. rewrite lstrip_snoc, H.
  destruct (lstrip s) as [|x l] eqn:E; [reflexivity|].
  now apply rstrip_space_snoc.
Qed.

(** *** Counting commas *)

Lemma commas_app (a b : str) : commas (a ++ b) = commas a + commas b.
Proof. unfold commas. now rewrite filter_app, length_app. Qed.

Lemma commas_cons (c : char) (s : str) :
  commas (c :: s) = (if N.eqb comma c then 1 else 0) + commas s.
Proof. unfold commas. cbn [filter]. now destruct (N.eqb comma c). Qed.

Lemma commas_rev (s : str) : commas (rev s) = commas s.
Proof.
  induction s as [|c s IH]; [reflexivity|].
  simpl rev. rewrite commas_app, IH, !commas_cons.
  change (commas []) with 0. lia.
Qed.

Lemma isspace_not_comma (c : char) : isspace c = true -> N.eqb comma c = false.
Proof.
  intros H. destruct (N.eqb_spec comma c) as [<-|]; [discriminate H | reflexivity].
Qed.

Lemma commas_lstrip (s : str) : commas (lstrip s) = commas s.
Proof.
  induction s as [|c s IH]; [reflexivity|].
  simpl. destruct (isspace c) eqn:E; [|reflexivity].
  now rewrite commas_cons, (isspace_not_comma _ E).
Qed.

Lemma commas_strip (s : str) : commas (strip s) = commas s.
Proof.
  unfold strip, rstrip.
  now rewrite commas_rev, commas_lstrip, commas_rev, commas_lstrip.
Qed.

(** *** Splitting *)

Lemma split_not_nil (sep : char) (s : str) : split sep s <> [].
Proof.
  destruct s as [|c s]; simpl; [discriminate|].
  destruct (N.eqb c sep); [discriminate|].
  destruct (split sep s); discriminate.
Qed.

Lemma split_cons_sep (sep : char) (s : str) :
  split sep (sep :: s) = [] :: split sep s.
Proof. simpl. now rewrite N.eqb_refl. Qed.

Lemma split_cons_other (sep c : char) (s : str) :
  N.eqb c sep = false ->
  exists h t, split sep s = h :: t /\ split sep (c :: s) = (c :: h) :: t.
Proof.
  intros H. simpl. rewrite H.
  destruct (split sep s) as [|h t] eqn:E.
  - now destruct (split_not_nil _ _ E).
  - now exists h, t.
Qed.

Lemma split_comma_length (s : str) :
  length (split comma s) = S (commas s).
Proof.
  induction s as [|c s IH]; [reflexivity|].
  rewrite commas_cons, (N.eqb_sym comma c). simpl split.
  destruct (N.eqb c comma); simpl.
  - now rewrite IH.
  - destruct (split comma s); simpl in *; lia.
Qed.

Lemma contains_comma (s : str) :
  contains (lit ",") s = negb (Nat.eqb (commas s) 0).
Proof.
  induction s as [|c s IH]; [reflexivity|].
  rewrite commas_cons.
  change (contains (lit ",") (c :: s))
    with (N.eqb comma c && true || contains (lit ",") s).
  rewrite IH, andb_true_r.
  destruct (N.eqb comma c); reflexivity.
Qed.

(** The test of line 103 counts commas. *)
Lemma is_tag_line_commas (line : str) :
  is_tag_line line = (2 <=? commas line).
Proof.
  unfold is_tag_line. rewrite contains_comma, split_comma_length.
  destruct (commas line) as [|[|n]]; reflexivity.
Qed.

Lemma split_app_nosep (sep : char) (a b : str) :
  (forall c, In c a -> c <> sep) ->
  exists h t, split sep b = h :: t /\ split sep (a ++ b) = (a ++ h) :: t.
Proof.
  induction a as [|x a IH]; intros Ha.
  - destruct (split sep b) as [|h t] eqn:E.
    + now destruct (split_not_nil _ _ E).
    + now exists h, t.
  - destruct IH as (h & t & E1 & E2).
    { intros c Hc. apply Ha. now right. }
    exists h, t. split; [assumption|].
    simpl. rewrite E2.
    destruct (N.eqb_spec x sep) as [->|_]; [|reflexivity].
    exfalso. apply (Ha sep); [now left | reflexivity].
Qed.

Lemma split_head_prefix (sep : char) (s h : str) (t : list str) :
  split sep s = h :: t -> exists rest, s = h ++ rest.
Proof.
  revert h t; induction s as [|c s IH]; intros h t; simpl.
  - intros [= <- <-]. now exists [].
  - destruct (N.eqb c sep).
    + intros [= <- <-]. now exists (c :: s).
    + destruct (split sep s) as [|h' t'] eqn:E.
      * intros [= <- <-]. now destruct (split_not_nil _ _ E).
      * intros [= <- <-]. destruct (IH _ _ eq_refl) as [rest ->].
        now exists rest.
Qed.

(** *** Replacing *)

(** An induction principle that follows the scan of [replace]. *)
Lemma replace_scan_ind (old : str) (P : str -> Prop) :
  old <> [] ->
  P [] ->
  (forall s, P s -> P (old ++ s)) ->
  (forall c s, startswith old (c :: s) = false -> P s -> P (c :: s)) ->
  forall s, P s.
Proof.
  intros Hne Hnil Hmatch Hstep s.
  remember (length s) as n eqn:Hn. revert s Hn.
  induction n as [n IH] using lt_wf_ind. intros [|c s] Hn; [exact Hnil|].
  destruct (startswith old (c :: s)) eqn:E.
  - rewrite (startswith_inv _ _ E). apply Hmatch.
    destruct old as [|o old]; [congruence|].
    apply (IH (length (skipn (length (o :: old)) (c :: s)))); [|reflexivity].
    rewrite length_skipn. simpl in *. lia.
  - apply Hstep; [assumption|].
    apply (IH (length s)); [simpl in Hn; lia | reflexivity].
Qed.

Lemma commas_replace (old s : str) :
  old <> [] -> commas old = 0 -> commas (replace old [] s) = commas s.
Proof.
  intros Hne H0.
  induction s as [| s IH | c s E IH] using (fun P => @replace_scan_ind old P Hne).
  - now rewrite replace_nil.
  - rewrite replace_match by assumption. simpl. rewrite commas_app. lia.
  - rewrite replace_step by assumption. rewrite !commas_cons. lia.
Qed.

Lemma split_replace (sep : char) (old s : str) :
  old <> [] -> (forall c, In c old -> c <> sep) ->
  split sep (replace old [] s) = map (replace old []) (split sep s).
Proof.
  intros Hne Hsep.
  induction s as [| s IH | c s E IH] using (fun P => @replace_scan_ind old P Hne).
  - cbn [split map]. now rewrite !replace_nil.
  - rewrite replace_match by assumption. simpl app at 1. rewrite IH.
    destruct (@split_app_nosep sep old s Hsep) as (h & t & E1 & E2).
    rewrite E2, E1. simpl. now rewrite replace_match.
  - rewrite replace_step by assumption.
    destruct (N.eqb_spec c sep) as [->|Hc].
    + rewrite !split_cons_sep, IH. simpl. now rewrite replace_nil.
    + apply N.eqb_neq in Hc.
      destruct (@split_cons_other sep c s Hc) as (h & t & E1 & E2).
      destruct (@split_cons_other sep c (replace old [] s) Hc) as (h' & t' & E1' & E2').
      rewrite E2, E2'. rewrite IH, E1 in E1'. simpl in E1'.
      injection E1' as <- <-. simpl. f_equal.
      rewrite replace_step; [reflexivity | assumption |].
      destruct (split_head_prefix _ _ E1) as [rest ->].
      destruct (startswith old (c :: h)) eqn:Eh; [|reflexivity].
      rewrite <- E. symmetry.
      change (c :: h ++ rest) with ((c :: h) ++ rest).
      now apply startswith_weaken.
Qed.

End StringFacts.

(* ------------------------------------------------------------------ *)
(** ** The response parser *)

Section ParserFacts.

Lemma last_cons (A : Type) (a d : A) (l : list A) : last (a :: l) d = last l a.
Proof.
  revert a d; induction l as [|b l IH]; intros a d; [reflexivity|].
  change (last (a :: b :: l) d) with (last (b :: l) d).
  now rewrite (IH b d), (IH b a).
Qed.

Lemma last_in (A : Type) (d : A) (l : list A) : l <> [] -> In (last l d) l.
Proof.
  induction l as [|a l IH]; [congruence|]. intros _.
  destruct l as [|b l]; [now left|].
  right. apply IH. discriminate.
Qed.

Lemma qualifies_strip (l : str) : qualifies (strip l) = qualifies l.
Proof. unfold qualifies. now rewrite commas_strip. Qed.

Lemma qualifies_truthy (l : str) : qualifies l = true -> truthy l = true.
Proof. destruct l; [cbv; discriminate | reflexivity]. Qed.

(** The loop of lines 101-106 keeps the last qualifying line and, in
    order, every other line. *)
Lemma classify_spec (lines acc : list str) (tl : str) :
  classify lines acc tl =
  (acc ++ prose_lines (map strip lines),
   last (tag_lines (map strip lines)) tl).
Proof.
  revert acc tl; induction lines as [|l lines IH]; intros acc tl.
  - simpl. now rewrite app_nil_r.
  - cbn [classify map]. unfold prose_lines, tag_lines. cbn [filter].
    rewrite is_tag_line_commas. fold (qualifies (strip l)).
    destruct (qualifies (strip l)) eqn:E; rewrite IH; cbn [negb].
    + now rewrite last_cons.
    + unfold prose_lines. now rewrite <- app_assoc.
Qed.

Lemma parse_response_digest (t : str) :
  parse_response t = digest (map strip (response_lines t)).
Proof.
  unfold parse_response, digest. rewrite classify_spec. cbn [app].
  f_equal.
  destruct (tag_lines (map strip (response_lines t))) as [|x F] eqn:E;
    [reflexivity|].
  assert (Hin : In (last (x :: F) []) (x :: F)) by (apply last_in; discriminate).
  rewrite <- E in Hin at 2. apply filter_In in Hin as [Hin Hq].
  rewrite (qualifies_truthy _ Hq).
  apply in_map_iff in Hin as (l & <- & _). apply strip_idem.
Qed.

(** *** Blank lines around the text *)

Lemma isspace_nl : isspace nl = true.
Proof. reflexivity. Qed.

Lemma lstrip_lines (u : str) :
  exists n, map strip (split nl u) = repeat [] n ++ map strip (split nl (lstrip u)).
Proof.
  induction u as [|c u [n IH]]; [now exists 0|].
  cbn [lstrip]. destruct (isspace c) eqn:E; [|now exists 0].
  destruct (N.eqb_spec c nl) as [->|Hc].
  - exists (S n). rewrite split_cons_sep. cbn [map repeat app].
    now rewrite IH.
  - apply N.eqb_neq in Hc.
    destruct (@split_cons_other nl c u Hc) as (h & t & E1 & E2).
    exists n. rewrite <- IH, E2, E1. cbn [map].
    now rewrite strip_space_cons.
Qed.

Lemma rstrip_lines (v : str) :
  exists m, map rstrip (split nl v) = map rstrip (split nl (rstrip v)) ++ repeat [] m.
Proof.
  induction v as [|c v [m IH]]; [now exists 0|].
  rewrite rstrip_cons.
  destruct (N.eqb_spec c nl) as [->|Hc].
  - rewrite split_cons_sep, isspace_nl.
    destruct (rstrip v) as [|x r] eqn:Ev.
    + exists (S m). cbn [map]. rewrite IH. reflexivity.
    + exists m. rewrite split_cons_sep. cbn [map app]. now rewrite IH.
  - apply N.eqb_neq in Hc.
    destruct (@split_cons_other nl c v Hc) as (h & t & E1 & E2).
    rewrite E2. rewrite E1 in IH. cbn [map] in *.
    destruct (rstrip v) as [|x r] eqn:Ev.
    + cbn [split map app] in IH. injection IH as Eh Et.
      destruct (isspace c) eqn:Ec.
      * exists m. cbn [split map app]. rewrite rstrip_cons, Eh, Ec, Et.
        reflexivity.
      * exists m. cbn [split map app]. rewrite Hc. cbn [split map app].
        rewrite !rstrip_cons, Eh, Et. reflexivity.
    + destruct (@split_cons_other nl c (x :: r) Hc) as (h' & t' & E1' & E2').
      rewrite E1' in IH. cbn [map app] in IH. injection IH as Eh Et.
      exists m. rewrite E2'. cbn [map app]. rewrite Et. f_equal.
      rewrite !rstrip_cons, Eh. reflexivity.
Qed.

Lemma strip_lstrip_rstrip (s : str) : strip s = lstrip (rstrip s).
Proof. unfold strip. now rewrite lstrip_rstrip. Qed.

(** Trimming the whole text only removes blank lines at both ends, once
    every line is trimmed. *)
Lemma strip_lines (u : str) :
  exists n m,
    map strip (split nl u) =
    repeat [] n ++ map strip (split nl (strip u)) ++ repeat [] m.
Proof.
  destruct (lstrip_lines u) as [n Hn].
  destruct (rstrip_lines (lstrip u)) as [m Hm].
  exists n, m. rewrite Hn. f_equal. fold (strip u) in Hm.
  rewrite (map_ext strip (fun s => lstrip (rstrip s)) strip_lstrip_rstrip).
  rewrite <- !(map_map rstrip lstrip), Hm, map_app. f_equal.
  - rewrite map_map. apply map_ext. intros s. symmetry.
    apply strip_lstrip_rstrip.
  - now rewrite map_repeat.
Qed.

Lemma strip_join_blank_cons (Y : list str) :
  strip (join (lit " ") ([] :: Y)) = strip (join (lit " ") Y).
Proof.
  destruct Y as [|y Y]; [reflexivity|].
  change (join (lit " ") ([] :: y :: Y)) with (32%N :: join (lit " ") (y :: Y)).
  now apply strip_space_cons.
Qed.

Lemma join_snoc_blank (sep : str) (Y : list str) :
  join sep (Y ++ [[]]) =
  match Y with
  | [] => []
  | _ :: _ => join sep Y ++ sep
  end.
Proof.
  induction Y as [|a Y IH]; [reflexivity|].
  destruct Y as [|b Y].
  - simpl. now rewrite !app_nil_r.
  - change (join sep ((a :: b :: Y) ++ [[]]))
      with (a ++ sep ++ join sep ((b :: Y) ++ [[]])).
    rewrite IH.
    change (join sep (a :: b :: Y)) with (a ++ sep ++ join sep (b :: Y)).
    now rewrite <- !app_assoc.
Qed.

Lemma strip_join_blank_snoc (Y : list str) :
  strip (join (lit " ") (Y ++ [[]])) = strip (join (lit " ") Y).
Proof.
  rewrite join_snoc_blank. destruct Y as [|y Y]; [reflexivity|].
  change (lit " ") with [32%N] at 2. now apply strip_space_snoc.
Qed.

Lemma strip_join_pad (n m : nat) (Y : list str) :
  strip (join (lit " ") (repeat [] n ++ Y ++ repeat [] m)) =
  strip (join (lit " ") Y).
Proof.
  induction n as [|n IHn].
  - induction m as [|m IHm]; [now rewrite app_nil_r|].
    cbn [app repeat] in *. rewrite repeat_cons, app_assoc, strip_join_blank_snoc.
    exact IHm.
  - cbn [repeat app]. now rewrite strip_join_blank_cons.
Qed.

Lemma tag_lines_blank (n : nat) : tag_lines (repeat [] n) = [].
Proof. induction n; [reflexivity | exact IHn]. Qed.

Lemma prose_lines_blank (n : nat) : prose_lines (repeat [] n) = repeat [] n.
Proof.
  induction n as [|n IH]; [reflexivity|].
  unfold prose_lines in *. cbn [repeat filter]. 
  change (negb (qualifies [])) with true. cbn iota. now rewrite IH.
Qed.

(** Blank lines before and after change nothing. *)
Lemma digest_pad (n m : nat) (Y : list str) :
  digest (repeat [] n ++ Y ++ repeat [] m) = digest Y.
Proof.
  unfold digest.
  assert (Ht : tag_lines (repeat [] n ++ Y ++ repeat [] m) = tag_lines Y).
  { unfold tag_lines. rewrite !filter_app.
    fold (tag_lines (repeat [] n)). fold (tag_lines (repeat [] m)).
    now rewrite !tag_lines_blank, app_nil_r. }
  assert (Hp : prose_lines (repeat [] n ++ Y ++ repeat [] m)
               = repeat [] n ++ prose_lines Y ++ repeat [] m).
  { unfold prose_lines. rewrite !filter_app.
    fold (prose_lines (repeat [] n)). fold (prose_lines (repeat [] m)).
    now rewrite !prose_lines_blank. }
  now rewrite Ht, Hp, strip_join_pad.
Qed.

Lemma split_clean_text (t : str) :
  split nl (clean_text t) = map clean_text (split nl t).
Proof.
  unfold clean_text.
  rewrite !split_replace, map_map; try discriminate; try reflexivity.
  - intros c Hc. cbv in Hc. intuition (subst; discriminate).
  - intros c Hc. cbv in Hc. intuition (subst; discriminate).
Qed.

Lemma commas_clean_text (l : str) : commas (clean_text l) = commas l.
Proof.
  unfold clean_text. rewrite !commas_replace; try discriminate; reflexivity.
Qed.

Lemma qualifies_tidy (l : str) : qualifies (tidy l) = qualifies l.
Proof.
  unfold tidy. rewrite qualifies_strip. unfold qualifies.
  now rewrite commas_clean_text.
Qed.

(** The parser, line by line of the completion text: each line has the
    labels removed and is trimmed; blank lines at both ends do not count. *)
Lemma parse_by_lines (t : str) :
  parse_response t = digest (map tidy (lines_of t)).
Proof.
  rewrite parse_response_digest. unfold response_lines, lines_of.
  destruct (strip_lines (clean_text t)) as (n & m & H).
  rewrite split_clean_text, map_map in H.
  unfold tidy. rewrite H. symmetry. apply digest_pad.
Qed.

End ParserFacts.

(* ------------------------------------------------------------------ *)
(** ** Properties of the response parser *)

Section ParserProperties.

Lemma tag_lines_tidy (ls : list str) :
  tag_lines (map tidy ls) = map tidy (tag_lines ls).
Proof.
  induction ls as [|l ls IH]; [reflexivity|].
  unfold tag_lines in *. cbn [map filter]. rewrite qualifies_tidy, IH.
  now destruct (qualifies l).
Qed.

Lemma prose_lines_tidy (ls : list str) :
  prose_lines (map tidy ls) = map tidy (prose_lines ls).
Proof.
  induction ls as [|l ls IH]; [reflexivity|].
  unfold prose_lines in *. cbn [map filter]. rewrite qualifies_tidy, IH.
  now destruct (qualifies l).
Qed.

Lemma filter_filter_same (A : Type) (f : A -> bool) (l : list A) :
  filter f (filter f l) = filter f l.
Proof.
  induction l as [|a l IH]; [reflexivity|].
  cbn [filter]. destruct (f a) eqn:E; [|exact IH].
  cbn [filter]. now rewrite E, IH.
Qed.

Lemma tag_lines_none (ls : list str) :
  (forall l, In l ls -> commas l <= 1) -> tag_lines ls = [].
Proof.
  induction ls as [|l ls IH]; intros H; [reflexivity|].
  unfold tag_lines in *. cbn [filter].
  assert (Hl : qualifies l = false).
  { unfold qualifies. apply Nat.leb_gt. specialize (H l (or_introl eq_refl)). lia. }
  rewrite Hl. apply IH. intros x Hx. apply H. now right.
Qed.

Lemma prose_lines_all (ls : list str) :
  (forall l, In l ls -> commas l <= 1) -> prose_lines ls = ls.
Proof.
  induction ls as [|l ls IH]; intros H; [reflexivity|].
  unfold prose_lines in *. cbn [filter].
  assert (Hl : qualifies l = false).
  { unfold qualifies. apply Nat.leb_gt. specialize (H l (or_introl eq_refl)). lia. }
  rewrite Hl. cbn [negb]. f_equal. apply IH. intros x Hx. apply H. now right.
Qed.

(** The last qualifying line is the tag line; the prose is made of the
    lines that do not qualify. *)
Lemma digest_last_tag (pre post : list str) (q : str) :
  qualifies q = true -> tag_lines post = [] ->
  digest (map tidy (pre ++ q :: post)) =
  (strip (join (lit " ") (map tidy (prose_lines (pre ++ post)))), tidy q).
Proof.
  intros Hq Hpost. unfold digest.
  rewrite prose_lines_tidy, tag_lines_tidy.
  assert (Hp : prose_lines (pre ++ q :: post) = prose_lines (pre ++ post)).
  { unfold prose_lines. rewrite !filter_app. cbn [filter]. now rewrite Hq. }
  assert (Ht : tag_lines (pre ++ q :: post) = tag_lines pre ++ [q]).
  { unfold tag_lines in *. rewrite filter_app. cbn [filter].
    now rewrite Hq, Hpost. }
  rewrite Hp, Ht, map_app. cbn [map]. f_equal.
  rewrite last_last.
  destruct (map tidy (tag_lines pre) ++ [tidy q]) eqn:E; [|reflexivity].
  now apply app_eq_nil in E as [_ ?].
Qed.

End ParserProperties.

(** Two inputs that separate the code from the wording of C1: the lines
    [x ] (with a trailing space), [ a,b,c] (with a leading space) and [y],
    which are trimmed; and the lines [Tags: a,b,c] and [x], of which the
    first loses its label. *)
Lemma C1_counterexample :
  ~ one_tag_line_verbatim
      (lit "x " ++ [nl] ++ lit " a,b,c" ++ [nl] ++ lit "y")
  /\ ~ one_tag_line_verbatim (lit "Tags: a,b,c" ++ [nl] ++ lit "x").
Proof.
  split; intros H.
  - specialize (H [lit "x "] (lit " a,b,c") [lit "y"] eq_refl eq_refl).
    assert (Hc : forall l, In l ([lit "x "] ++ [lit "y"]) -> commas l <= 1).
    { intros l [<-|[<-|[]]]; cbv; lia. }
    specialize (H Hc). vm_compute in H. discriminate H.
  - specialize (H [] (lit "Tags: a,b,c") [lit "x"] eq_refl eq_refl).
    assert (Hc : forall l, In l ([] ++ [lit "x"]) -> commas l <= 1).
    { intros l [<-|[]]; cbv; lia. }
    specialize (H Hc). vm_compute in H. discriminate H.
Qed.

(** C1 (as amended): when exactly one line of the completion text has two
    commas or more, [tags] is that line with the header labels removed and
    trimmed, and [description] is the other lines, each with the labels
    removed and trimmed, joined by single spaces, the result trimmed. *)
Theorem C1_one_tag_line (t : str) (pre post : list str) (q : str) :
  lines_of t = pre ++ q :: post ->
  qualifies q = true ->
  (forall l, In l (pre ++ post) -> commas l <= 1) ->
  parse_response t =
  (strip (join (lit " ") (map tidy (pre ++ post))), tidy q).
Proof.
  intros Hlines Hq Hothers.
  rewrite parse_by_lines, Hlines, digest_last_tag; trivial.
  - now rewrite (prose_lines_all _ Hothers).
  - apply tag_lines_none. intros l Hl. apply Hothers.
    apply in_or_app. now right.
Qed.

Lemma C1_witness :
  parse_response (lit "Tags: a,b,c " ++ [nl] ++ lit " x") =
  (lit "x", lit "a,b,c").
Proof.
  apply (@C1_one_tag_line (lit "Tags: a,b,c " ++ [nl] ++ lit " x")
           [] [lit " x"] (lit "Tags: a,b,c ")).
  - reflexivity.
  - reflexivity.
  - intros l [<-|[]]. vm_compute. lia.
Defined.

(** Two inputs that separate the code from the wording of C2: the lines
    [x ] (with a trailing space) and [y], which are trimmed; and the single
    line [Description: x], which loses its label. *)
Lemma C2_counterexample :
  ~ no_tag_line_verbatim (lit "x " ++ [nl] ++ lit "y")
  /\ ~ no_tag_line_verbatim (lit "Description: x").
Proof.
  split; intros H.
  - assert (Hc : forall l, In l (lines_of (lit "x " ++ [nl] ++ lit "y")) ->
                           commas l <= 1).
    { intros l [<-|[<-|[]]]; cbv; lia. }
    specialize (H Hc). vm_compute in H. discriminate H.
  - assert (Hc : forall l, In l (lines_of (lit "Description: x")) ->
                           commas l <= 1).
    { intros l [<-|[]]; cbv; lia. }
    specialize (H Hc). vm_compute in H. discriminate H.
Qed.

(** C2 (as amended): when no line of the completion text has two commas or
    more, [tags] is the literal [AI generated] and [description] is the
    lines of the text, each with the header labels removed and trimmed,
    joined by single spaces, the result trimmed. *)
Theorem C2_no_tag_line (t : str) :
  (forall l, In l (lines_of t) -> commas l <= 1) ->
  parse_response t =
  (strip (join (lit " ") (map tidy (lines_of t))), lit "AI generated").
Proof.
  intros H. rewrite parse_by_lines. unfold digest.
  rewrite prose_lines_tidy, tag_lines_tidy.
  now rewrite (prose_lines_all _ H), (tag_lines_none _ H).
Qed.

Lemma C2_witness :
  parse_response (lit "Description: a bag, " ++ [nl] ++ lit " red") =
  (lit "a bag, red", lit "AI generated").
Proof.
  apply (@C2_no_tag_line (lit "Description: a bag, " ++ [nl] ++ lit " red")).
  intros l [<-|[<-|[]]]; vm_compute; lia.
Defined.

(** C9: when several lines of the completion text have two commas or more,
    [tags] is made of the last of them only, and [description] of the lines
    that have fewer than two commas only: an earlier qualifying line goes
    into neither. *)
Theorem C9_last_tag_line_wins (t : str) (pre post : list str) (e q : str) :
  lines_of t = pre ++ q :: post ->
  In e pre -> qualifies e = true ->
  qualifies q = true ->
  (forall l, In l post -> commas l <= 1) ->
  parse_response t =
  (strip (join (lit " ") (map tidy (prose_lines (pre ++ post)))), tidy q)
  /\ ~ In e (prose_lines (pre ++ post))
  /\ (forall t', lines_of t' = prose_lines pre ++ q :: post ->
                 parse_response t' = parse_response t).
Proof.
  intros Hlines He Hqe Hq Hpost.
  assert (Ht : tag_lines post = []) by now apply tag_lines_none.
  assert (E : parse_response t =
              (strip (join (lit " ") (map tidy (prose_lines (pre ++ post)))),
               tidy q))
    by (rewrite parse_by_lines, Hlines; now apply digest_last_tag).
  split; [exact E|]. split.
  - unfold prose_lines. rewrite filter_In, Hqe. now intros [_ ?].
  - intros t' Hlines'. rewrite E, parse_by_lines, Hlines', digest_last_tag by trivial.
    unfold prose_lines. now rewrite !filter_app, filter_filter_same.
Qed.

Lemma C9_witness :
  parse_response
    (lit "a, b, c" ++ [nl] ++ lit "found it" ++ [nl] ++ lit "d, e, f") =
  (lit "found it", lit "d, e, f")
  /\ ~ In (lit "a, b, c") [lit "found it"]
  /\ (forall t', lines_of t' = [lit "found it"; lit "d, e, f"] ->
       parse_response t' =
       parse_response
         (lit "a, b, c" ++ [nl] ++ lit "found it" ++ [nl] ++ lit "d, e, f")).
Proof.
  apply (@C9_last_tag_line_wins
           (lit "a, b, c" ++ [nl] ++ lit "found it" ++ [nl] ++ lit "d, e, f")
           [lit "a, b, c"; lit "found it"] [] (lit "a, b, c") (lit "d, e, f")).
  - reflexivity.
  - now left.
  - reflexivity.
  - reflexivity.
  - intros l [].
Defined.

(* ------------------------------------------------------------------ *)
(** ** Removal of the header labels *)

Section LabelRemoval.

Lemma in_skipn (A : Type) (x : A) (n : nat) (l : list A) :
  In x (skipn n l) -> In x l.
Proof.
  intros H. rewrite <- (firstn_skipn n l). apply in_or_app. now right.
Qed.

Lemma startswith_app_short (q p b : str) :
  startswith q (p ++ b) = true -> length q <= length p ->
  startswith q p = true.
Proof.
  revert p; induction q as [|x q IH]; intros [|y p]; simpl; trivial.
  - intros _ H. lia.
  - intros H Hlen. apply andb_true_iff in H as [-> H]. 
    apply IH; [assumption | lia].
Qed.

(** A match that starts inside [a] and runs past its end continues at the
    start of what follows. *)
Lemma startswith_overlap (p a s : str) :
  startswith p (a ++ s) = true -> length a <= length p ->
  startswith (skipn (length a) p) s = true.
Proof.
  revert p; induction a as [|x a IH]; intros p; simpl; trivial.
  destruct p as [|y p]; simpl; [lia|].
  intros H Hlen. apply andb_true_iff in H as [_ H].
  apply IH; [assumption | lia].
Qed.

Lemma unbordered_spec (p : str) (d : nat) :
  unbordered p = true -> 0 < d < length p ->
  startswith (skipn d p) p = false.
Proof.
  unfold unbordered. rewrite forallb_forall. intros H Hd.
  apply negb_true_iff, H, in_seq. lia.
Qed.

(** An occurrence of an unbordered [old] is found by the scan wherever it
    stands. *)
Lemma replace_occurrence (old new a b : str) :
  old <> [] -> unbordered old = true ->
  replace old new (a ++ old ++ b) =
  replace old new a ++ new ++ replace old new b.
Proof.
  intros Hne Hub.
  induction a as [| a IH | c a E IH] using (fun P => @replace_scan_ind old P Hne).
  - rewrite replace_nil by assumption. cbn [app]. now apply replace_match.
  - rewrite <- app_assoc, !replace_match, IH, <- app_assoc by assumption.
    reflexivity.
  - rewrite (@replace_step old new c a Hne E). cbn [app].
    rewrite replace_step, IH; trivial.
    destruct (startswith old (c :: a ++ old ++ b)) eqn:E'; [|reflexivity].
    change (c :: a ++ old ++ b) with ((c :: a) ++ old ++ b) in E'.
    destruct (Nat.le_gt_cases (length old) (length (c :: a))) as [Hle|Hgt].
    + rewrite (startswith_app_short _ _ _ E' Hle) in E. discriminate E.
    + apply startswith_overlap in E'; [|lia].
      apply startswith_app_short in E'; [|rewrite length_skipn; lia].
      rewrite unbordered_spec in E'; [discriminate E' | assumption |].
      simpl in *. lia.
Qed.

Lemma replace_through (o : char) (old new w b : str) :
  ~ In o w ->
  replace (o :: old) new (w ++ b) = w ++ replace (o :: old) new b.
Proof.
  intros Hw. induction w as [|x w IH]; [reflexivity|].
  cbn [app]. rewrite replace_step; [| discriminate |].
  - f_equal. apply IH. intros H. apply Hw. now right.
  - simpl. destruct (N.eqb_spec o x) as [->|_]; [|reflexivity].
    exfalso. apply Hw. now left.
Qed.

(** A word that cannot overlap an occurrence of [old] is passed over as it
    is, wherever it stands. *)
Lemma replace_passes (o x : char) (old new w a b : str) :
  ~ In x (o :: old) -> ~ In o (x :: w) ->
  replace (o :: old) new (a ++ (x :: w) ++ b) =
  replace (o :: old) new a ++ (x :: w) ++ replace (o :: old) new b.
Proof.
  intros Hx Ho.
  assert (Hne : o :: old <> []) by discriminate.
  induction a as [| a IH | c a E IH]
    using (fun P => @replace_scan_ind (o :: old) P Hne).
  - rewrite replace_nil by assumption.
    change ([] ++ (x :: w) ++ b) with ((x :: w) ++ b).
    change ([] ++ (x :: w) ++ replace (o :: old) new b)
      with ((x :: w) ++ replace (o :: old) new b).
    now apply replace_through.
  - rewrite <- app_assoc, !replace_match, IH, <- app_assoc by assumption.
    reflexivity.
  - rewrite (@replace_step (o :: old) new c a Hne E).
    change ((c :: a) ++ (x :: w) ++ b) with (c :: a ++ (x :: w) ++ b).
    rewrite replace_step, IH; trivial.
    destruct (startswith (o :: old) (c :: a ++ (x :: w) ++ b)) eqn:E';
      [|reflexivity].
    change (c :: a ++ (x :: w) ++ b) with ((c :: a) ++ (x :: w) ++ b) in E'.
    destruct (Nat.le_gt_cases (length (o :: old)) (length (c :: a))) as [Hle|Hgt].
    + rewrite (startswith_app_short _ _ _ E' Hle) in E. discriminate E.
    + apply startswith_overlap in E'; [|lia].
      destruct (skipn (length (c :: a)) (o :: old)) as [|y r] eqn:Es.
      * apply skipn_all_iff in Es. lia.
      * cbn [app startswith] in E'. apply andb_true_iff in E' as [Ey _].
        apply N.eqb_eq in Ey. subst y. exfalso. apply Hx.
        apply (@in_skipn _ x (length (c :: a))). rewrite Es. now left.
Qed.

(** A text in which [old] does not occur is left as it is. *)
Lemma replace_absent (old new t : str) :
  old <> [] -> contains old t = false -> replace old new t = t.
Proof.
  intros Hne. induction t as [|c t IH]; intros H.
  - now apply replace_nil.
  - cbn [contains] in H. apply orb_false_iff in H as [Hs Hc].
    rewrite replace_step by assumption. f_equal. now apply IH.
Qed.

(** The scan cuts the text at the occurrences of [old] it removes: the
    text is the pieces joined by [old], no piece holds [old], and the
    result is the pieces put together. *)
Lemma replace_pieces (old t : str) :
  old <> [] ->
  exists ps,
    ps <> []
    /\ t = join old ps
    /\ (forall p, In p ps -> contains old p = false)
    /\ replace old [] t = concat ps.
Proof.
  intros Hne.
  induction t as [| t (ps & Hps & Ht & Hfree & Hr)
                  | c t E (ps & Hps & Ht & Hfree & Hr)]
    using (fun P => @replace_scan_ind old P Hne).
  - exists [[]]. repeat split; try discriminate.
    + intros p [<- | []]. destruct old; [congruence | reflexivity].
    + now apply replace_nil.
  - exists ([] :: ps). repeat split; try discriminate.
    + destruct ps as [|p ps']; [congruence|].
      change (join old ([] :: p :: ps')) with ([] ++ old ++ join old (p :: ps')).
      now rewrite <- Ht.
    + intros p [<- | Hp]; [|now apply Hfree].
      destruct old; [congruence | reflexivity].
    + rewrite replace_match by assumption. exact Hr.
  - destruct ps as [|p ps']; [congruence|].
    exists ((c :: p) :: ps'). repeat split; try discriminate.
    + rewrite Ht. now destruct ps'.
    + intros q [<- | Hq]; [|apply Hfree; now right].
      cbn [contains]. rewrite (Hfree p (or_introl eq_refl)), orb_false_r.
      destruct (startswith old (c :: p)) eqn:Es; [|reflexivity].
      rewrite <- E. symmetry. rewrite Ht.
      destruct ps' as [|p' ps'']; [exact Es|].
      change (join old (p :: p' :: ps''))
        with (p ++ old ++ join old (p' :: ps'')).
      change (c :: p ++ old ++ join old (p' :: ps''))
        with ((c :: p) ++ old ++ join old (p' :: ps'')).
      now apply startswith_weaken.
    + rewrite replace_step by assumption. rewrite Hr. reflexivity.
Qed.

Lemma label_free_inv (t : str) :
  label_free t = true ->
  contains (lit "Description:") t = false /\ contains (lit "Tags:") t = false.
Proof.
  unfold label_free. intros H. apply andb_true_iff in H as [H1 H2].
  now apply negb_true_iff in H1, H2.
Qed.

(** A text without labels is left as it is. *)
Lemma clean_label_free (t : str) : label_free t = true -> clean_text t = t.
Proof.
  intros H. apply label_free_inv in H as [HD HT]. unfold clean_text.
  rewrite (@replace_absent (lit "Description:") [] t) by (discriminate || assumption).
  now apply replace_absent.
Qed.

Lemma clean_around_tags (a b : str) :
  clean_text (a ++ lit "Tags:" ++ b) = clean_text a ++ clean_text b.
Proof.
  unfold clean_text.
  assert (H : replace (lit "Description:") [] (a ++ lit "Tags:" ++ b) =
              replace (lit "Description:") [] a ++ lit "Tags:"
              ++ replace (lit "Description:") [] b).
  { apply (@replace_passes 68%N 84%N (lit "escription:") [] (lit "ags:") a b);
      vm_compute; intuition discriminate. }
  rewrite H. now rewrite replace_occurrence.
Qed.

Lemma clean_around_description (a b : str) :
  clean_text (a ++ lit "Description:" ++ b) =
  replace (lit "Tags:") []
    (replace (lit "Description:") [] a ++ replace (lit "Description:") [] b).
Proof. unfold clean_text. now rewrite replace_occurrence. Qed.

End LabelRemoval.

(** C10: an occurrence of [Tags:] or of [Description:] is removed whatever
    stands before and after it in the completion text, in the middle of a
    sentence as well as at the start of a line, and nothing else is
    removed.  A text without labels is left as it is; around an occurrence
    of a label the text is cleaned as if it stood alone, so that between
    two texts without labels the label alone goes; and in general the text
    is cut at every occurrence of [Description:], the pieces are put
    together and cut at every occurrence of [Tags:], and these pieces put
    together are the cleaned text. *)
Theorem C10_labels_removed_anywhere :
  (forall t, label_free t = true -> clean_text t = t)
  /\ (forall a b,
        clean_text (a ++ lit "Tags:" ++ b) = clean_text a ++ clean_text b)
  /\ (forall a b,
        clean_text (a ++ lit "Description:" ++ b) =
        replace (lit "Tags:") []
          (replace (lit "Description:") [] a
           ++ replace (lit "Description:") [] b))
  /\ (forall a b,
        label_free a = true -> label_free b = true ->
        clean_text (a ++ lit "Tags:" ++ b) = a ++ b
        /\ (contains (lit "Tags:") (a ++ b) = false ->
            clean_text (a ++ lit "Description:" ++ b) = a ++ b))
  /\ (forall t,
        exists ps qs,
          t = join (lit "Description:") ps
          /\ (forall p, In p ps -> contains (lit "Description:") p = false)
          /\ concat ps = join (lit "Tags:") qs
          /\ (forall q, In q qs -> contains (lit "Tags:") q = false)
          /\ clean_text t = concat qs).
Proof.
  split; [exact clean_label_free|].
  split; [exact clean_around_tags|].
  split; [exact clean_around_description|].
  split.
  - intros a b Ha Hb. split.
    + now rewrite clean_around_tags, !clean_label_free.
    + intros Hj. apply label_free_inv in Ha as [HaD _], Hb as [HbD _].
      rewrite clean_around_description.
      rewrite !(@replace_absent (lit "Description:")) by (discriminate || assumption).
      now apply replace_absent.
  - intros t.
    destruct (@replace_pieces (lit "Description:") t)
      as (ps & _ & Ht & Hps & Hr); [discriminate|].
    destruct (@replace_pieces (lit "Tags:") (concat ps))
      as (qs & _ & Hc & Hqs & Hr'); [discriminate|].
    exists ps, qs. repeat split; trivial.
    unfold clean_text. now rewrite Hr, Hr'.
Qed.

Lemma C10_witness :
  clean_text (lit "a red bag, Tags: as the tag says") =
    lit "a red bag,  as the tag says"
  /\ clean_text (lit "see Description: of the bag") = lit "see  of the bag"
  /\ clean_text (lit "a red bag") = lit "a red bag".
Proof.
  destruct C10_labels_removed_anywhere as (Hfree & _ & _ & Hlabel & _).
  split; [|split].
  - apply (proj1 (Hlabel (lit "a red bag, ") (lit " as the tag says")
                    eq_refl eq_refl)).
  - apply (proj2 (Hlabel (lit "see ") (lit " of the bag") eq_refl eq_refl)).
    reflexivity.
  - apply (Hfree (lit "a red bag")). reflexivity.
Defined.

(* ------------------------------------------------------------------ *)
(** ** The report handler *)

Section ReportFacts.

Lemma strip_blank (s : str) : blank s = true -> strip s = [].
Proof.
  intros H. assert (Hl : lstrip s = []).
  { induction s as [|c s IH]; [reflexivity|].
    simpl in *. apply andb_true_iff in H as [Hc Hr]. rewrite Hc. auto. }
  unfold strip. now rewrite Hl.
Qed.

Lemma same_triple_spec (n l d : str) (r : item) :
  same_triple n l d r = true <-> triple r = (n, l, d).
Proof.
  unfold same_triple, triple. rewrite !andb_true_iff, !str_eqb_eq.
  split; [intros [[-> ->] ->]; reflexivity | intros [= -> -> ->]; auto].
Qed.

Lemma select_existing_none (t : table) (n l d : str) :
  select_existing t n l d = None <-> ~ In (n, l, d) (map triple t).
Proof.
  unfold select_existing. split.
  - intros H Hin. apply in_map_iff in Hin as (r & Hr & Hin).
    apply same_triple_spec in Hr.
    now rewrite (find_none _ _ H r Hin) in Hr.
  - intros H. destruct (find (same_triple n l d) t) as [r|] eqn:E; [|reflexivity].
    apply find_some in E as [Hin Hr]. apply same_triple_spec in Hr.
    exfalso. apply H. rewrite <- Hr. now apply in_map.
Qed.

Lemma select_existing_some (t : table) (n l d : str) :
  In (n, l, d) (map triple t) -> exists r, select_existing t n l d = Some r.
Proof.
  intros H. destruct (select_existing t n l d) as [r|] eqn:E; [now exists r|].
  now apply select_existing_none in E.
Qed.

(** The report once the three fields are filled in. *)
Lemma report_filled (e : env) (rq : request) (w : world) :
  req_method rq = POST ->
  field "item_name" rq <> [] -> field "keywords" rq <> [] ->
  field "location" rq <> [] ->
  report e rq w =
  let n := field "item_name" rq in
  let l := field "location" rq in
  let msgs := report_messages n (field "keywords" rq) in
  let w1 := call_logged w msgs in
  match complete e msgs with
  | Raised error => (Body (lit "Groq API Error: " ++ error), w1)
  | Returned text =>
      let p := parse_response (strip text) in
      match select_existing (items w) n l (fst p) with
      | Some _ => (Body (lit "Item already exists in database."), w1)
      | None =>
          match insert_error e with
          | Some error => (Body (lit "Database Error: " ++ error), w1)
          | None =>
              (Redirect (lit "/search"),
               World (insert (items w) n (fst p) (snd p) l) (llm_log w1))
          end
      end
  end.
Proof.
  intros Hm Hn Hk Hl. unfold report. rewrite Hm.
  destruct (field "item_name" rq) as [|n0 n] eqn:En; [congruence|].
  destruct (field "keywords" rq) as [|k0 k] eqn:Ek; [congruence|].
  destruct (field "location" rq) as [|l0 l] eqn:El; [congruence|].
  cbn [truthy negb orb].
  destruct (complete e _); [|reflexivity].
  now destruct (parse_response (strip text)).
Qed.

Lemma report_unfilled (e : env) (rq : request) (w : world) :
  req_method rq = POST ->
  field "item_name" rq = [] \/ field "keywords" rq = [] \/
  field "location" rq = [] ->
  report e rq w = (Body (lit "All fields are required."), w).
Proof.
  intros Hm H. unfold report. rewrite Hm.
  destruct H as [-> | [-> | ->]]; cbn [truthy negb orb];
    rewrite ?orb_true_r; reflexivity.
Qed.

End ReportFacts.

(** C3: a report in which one of the three fields is empty or made of white
    space only is answered with the rejection message; the world is left as
    it was: no call to the completion service is made and the table is not
    changed. *)
Theorem C3_missing_field_rejected (e : env) (rq : request) (w : world) :
  req_method rq = POST ->
  blank (raw_field "item_name" rq) = true \/
  blank (raw_field "keywords" rq) = true \/
  blank (raw_field "location" rq) = true ->
  report e rq w = (Body (lit "All fields are required."), w).
Proof.
  intros Hm H. apply report_unfilled; [assumption|].
  unfold field. fold (raw_field "item_name" rq).
  fold (raw_field "keywords" rq). fold (raw_field "location" rq).
  destruct H as [H | [H | H]]; apply strip_blank in H; auto.
Qed.

Lemma C3_witness :
  report (Env (fun _ => Returned (lit "unused")) None)
         (Request POST
            [(lit "item_name", lit "Blue Backpack");
             (lit "keywords", lit "   ");
             (lit "location", lit "Main Hall")] None)
         initial
  = (Body (lit "All fields are required."), initial).
Proof.
  apply C3_missing_field_rejected.
  - reflexivity.
  - right. left. reflexivity.
Defined.

(** C5: the example of the specification.  A report of item
    [Blue Backpack], keywords [left, near library] and location [Main Hall],
    for which the service returns the text of the example, stores a row
    whose description is [A blue backpack found near the library.] and
    whose tags are [backpack, blue, library, lost, bag]. *)
Theorem C5_end_to_end (e : env) (rq : request) (w : world) :
  req_method rq = POST ->
  raw_field "item_name" rq = lit "Blue Backpack" ->
  raw_field "keywords" rq = lit "left, near library" ->
  raw_field "location" rq = lit "Main Hall" ->
  complete e (report_messages (lit "Blue Backpack") (lit "left, near library"))
    = Returned example_completion ->
  (forall r, In r (items w) ->
     triple r <> (lit "Blue Backpack", lit "Main Hall",
                  lit "A blue backpack found near the library.")) ->
  insert_error e = None ->
  report e rq w =
  (Redirect (lit "/search"),
   World (items w ++
          [Item (next_id (items w)) (lit "Blue Backpack")
             (lit "A blue backpack found near the library.")
             (lit "backpack, blue, library, lost, bag")
             (lit "Main Hall")])
         (llm_log w ++
          [report_messages (lit "Blue Backpack") (lit "left, near library")])).
Proof.
  intros Hm Hn Hk Hl Hc Hnew Hins.
  assert (En : field "item_name" rq = lit "Blue Backpack")
    by (unfold field; fold (raw_field "item_name" rq); now rewrite Hn).
  assert (Ek : field "keywords" rq = lit "left, near library")
    by (unfold field; fold (raw_field "keywords" rq); now rewrite Hk).
  assert (El : field "location" rq = lit "Main Hall")
    by (unfold field; fold (raw_field "location" rq); now rewrite Hl).
  rewrite report_filled; try assumption;
    try (rewrite ?En, ?Ek, ?El; discriminate).
  rewrite En, Ek, El. cbv zeta. rewrite Hc.
  assert (Ep : parse_response (strip example_completion) =
               (lit "A blue backpack found near the library.",
                lit "backpack, blue, library, lost, bag"))
    by (vm_compute; reflexivity).
  rewrite Ep. cbn [fst snd].
  assert (Es : select_existing (items w) (lit "Blue Backpack") (lit "Main Hall")
                 (lit "A blue backpack found near the library.") = None).
  { apply select_existing_none. intros Hin.
    apply in_map_iff in Hin as (r & Hr & Hin). exact (Hnew r Hin Hr). }
  rewrite Es, Hins. reflexivity.
Qed.

Lemma C5_witness :
  report example_env example_request initial
  = (Redirect (lit "/search"),
     World [example_item]
           [report_messages (lit "Blue Backpack") (lit "left, near library")]).
Proof.
  apply (@C5_end_to_end example_env example_request initial);
    try reflexivity.
  intros r [].
Defined.

(* ------------------------------------------------------------------ *)
(** ** The table along a run *)

Section TableFacts.

(** Either the report leaves the table as it is and does not redirect, or
    it went through every step and added one row. *)
Lemma report_decide (e : env) (rq : request) (w : world) :
  (items (snd (report e rq w)) = items w /\
   forall t, fst (report e rq w) <> Redirect t)
  \/
  (req_method rq = POST /\
   field "item_name" rq <> [] /\ field "keywords" rq <> [] /\
   field "location" rq <> [] /\
   exists text,
     let n := field "item_name" rq in
     let l := field "location" rq in
     let msgs := report_messages n (field "keywords" rq) in
     let p := parse_response (strip text) in
     complete e msgs = Returned text /\
     select_existing (items w) n l (fst p) = None /\
     insert_error e = None /\
     report e rq w =
     (Redirect (lit "/search"),
      World (insert (items w) n (fst p) (snd p) l) (llm_log w ++ [msgs]))).
Proof.
  destruct (req_method rq) eqn:Hm.
  { left. unfold report. rewrite Hm. split; [reflexivity | discriminate]. }
  destruct (field "item_name" rq) as [|n0 n] eqn:En.
  { left. rewrite report_unfilled; auto. split; [reflexivity | discriminate]. }
  destruct (field "keywords" rq) as [|k0 k] eqn:Ek.
  { left. rewrite report_unfilled; auto. split; [reflexivity | discriminate]. }
  destruct (field "location" rq) as [|l0 l] eqn:El.
  { left. rewrite report_unfilled; auto. split; [reflexivity | discriminate]. }
  rewrite report_filled by (rewrite ?En, ?Ek, ?El; congruence).
  rewrite En, Ek, El. cbv zeta.
  destruct (complete e _) as [text|error] eqn:Ec.
  2:{ left. split; [reflexivity | discriminate]. }
  destruct (select_existing _ _ _ _) as [r|] eqn:Es.
  { left. split; [reflexivity | discriminate]. }
  destruct (insert_error e) as [error|] eqn:Ei.
  { left. split; [reflexivity | discriminate]. }
  right. repeat (split; [discriminate|]). split; [reflexivity|].
  repeat (split; [discriminate|]).
  exists text. cbv zeta. auto.
Qed.

Lemma search_world (rq : request) (w : world) : snd (search rq w) = w.
Proof. reflexivity. Qed.

Lemma chat_reply_items (e : env) (rq : request) (w : world) :
  items (snd (chat_reply e rq w)) = items w.
Proof.
  unfold chat_reply. destruct (truthy _); [|reflexivity].
  destruct (select_like _ _); [|reflexivity].
  now destruct (complete e _).
Qed.

Lemma chat_items (e : env) (rq : request) (w : world) :
  items (snd (chat e rq w)) = items w.
Proof.
  unfold chat. destruct (req_method rq); [reflexivity|].
  pose proof (chat_reply_items e rq w) as H.
  destruct (chat_reply e rq w) as [reply w']. cbn [snd] in H.
  destruct (x_requested_with rq) as [v|]; [|exact H].
  now destruct (str_eqb v _).
Qed.

(** Only a report that goes through changes the table. *)
Lemma handle_items (e : env) (rt : route) (rq : request) (w : world) :
  items (snd (handle e rt rq w)) = items w
  \/
  (rt = RReport /\ exists text,
     let n := field "item_name" rq in
     let l := field "location" rq in
     let p := parse_response (strip text) in
     complete e (report_messages n (field "keywords" rq)) = Returned text /\
     select_existing (items w) n l (fst p) = None /\
     items (snd (handle e rt rq w)) = insert (items w) n (fst p) (snd p) l).
Proof.
  destruct rt; cbn [handle].
  - now left.
  - destruct (report_decide e rq w) as [[H _] | (_ & _ & _ & _ & text & H)].
    + now left.
    + right. split; [reflexivity|]. exists text. cbv zeta in *.
      destruct H as (Hc & Hs & _ & ->). auto.
  - now left.
  - left. apply chat_items.
Qed.

Lemma insert_no_duplicate (t : table) (n d tg l : str) :
  select_existing t n l d = None ->
  NoDup (map triple t) -> NoDup (map triple (insert t n d tg l)).
Proof.
  intros Hs Hnd. unfold insert. rewrite map_app. cbn [map].
  apply select_existing_none in Hs.
  apply NoDup_app; [assumption | repeat constructor; intros [] |].
  intros a Ha [<-|[]]. now apply Hs.
Qed.

Lemma handle_no_duplicate (e : env) (rt : route) (rq : request) (w : world) :
  no_duplicate_triples w -> no_duplicate_triples (snd (handle e rt rq w)).
Proof.
  unfold no_duplicate_triples. intros H.
  destruct (handle_items e rt rq w) as [-> | (_ & text & Hc & Hs & ->)];
    [assumption|].
  now apply insert_no_duplicate.
Qed.

Lemma serve_no_duplicate (reqs : list (env * route * request)) (w : world) :
  no_duplicate_triples w -> no_duplicate_triples (serve reqs w).
Proof.
  revert w; induction reqs as [|[[e rt] rq] reqs IH]; intros w H; [exact H|].
  cbn [serve]. apply IH. now apply handle_no_duplicate.
Qed.

Lemma last_map_tidy (ls : list str) :
  last (map tidy ls) [] = tidy (last ls []).
Proof.
  induction ls as [|a [|b ls] IH]; [reflexivity | reflexivity |].
  exact IH.
Qed.

(** Where the tags of a parsed completion come from. *)
Lemma parse_tags_origin (t : str) :
  snd (parse_response t) = lit "AI generated" \/
  exists line, In line (lines_of t) /\ qualifies line = true /\
               snd (parse_response t) = tidy line.
Proof.
  rewrite parse_by_lines. unfold digest. cbn [snd].
  rewrite tag_lines_tidy.
  destruct (tag_lines (lines_of t)) as [|x F] eqn:E; [now left|].
  right. exists (last (x :: F) []).
  assert (Hin : In (last (x :: F) []) (x :: F)) by (apply last_in; discriminate).
  rewrite <- E in Hin at 2. apply filter_In in Hin as [Hin Hq].
  repeat split; trivial.
  cbn [map]. change (tidy x :: map tidy F) with (map tidy (x :: F)).
  apply last_map_tidy.
Qed.

Lemma serve_tags (all reqs : list (env * route * request)) (w : world) :
  incl reqs all ->
  (forall r, In r (items w) -> tags_from_completion all r) ->
  forall r, In r (items (serve reqs w)) -> tags_from_completion all r.
Proof.
  revert w; induction reqs as [|[[e rt] rq] reqs IH]; intros w Hincl Hw;
    [exact Hw|].
  cbn [serve]. apply IH.
  - intros x Hx. apply Hincl. now right.
  - intros r Hr.
    destruct (handle_items e rt rq w) as [E | (-> & text & Hc & _ & E)];
      rewrite E in Hr; [now apply Hw|].
    unfold insert in Hr. apply in_app_or in Hr as [Hr | [<- | []]];
      [now apply Hw|].
    unfold tags_from_completion. cbn [tags].
    destruct (parse_tags_origin (strip text)) as [Ht | (line & Hl & Hq & Ht)];
      [now left|].
    right. exists e, rq, text, line. repeat split; trivial.
    apply Hincl. now left.
Qed.

End TableFacts.

(** C4: a report whose triple (item name, location, description) is
    already in the table is answered with the message that the item exists
    and adds no row; in particular a report that was stored is refused when
    it is made again with the same completion; and so, along requests
    served one after the other, no two rows ever share the triple. *)
Theorem C4_duplicate_rejected :
  (forall e rq w text,
     req_method rq = POST ->
     field "item_name" rq <> [] -> field "keywords" rq <> [] ->
     field "location" rq <> [] ->
     complete e (report_messages (field "item_name" rq) (field "keywords" rq))
       = Returned text ->
     In (field "item_name" rq, field "location" rq,
         fst (parse_response (strip text))) (map triple (items w)) ->
     fst (report e rq w) = Body (lit "Item already exists in database.")
     /\ items (snd (report e rq w)) = items w)
  /\
  (forall e rq w w1 target,
     report e rq w = (Redirect target, w1) ->
     fst (report e rq w1) = Body (lit "Item already exists in database.")
     /\ items (snd (report e rq w1)) = items w1)
  /\
  (forall reqs w,
     no_duplicate_triples w -> no_duplicate_triples (serve reqs w))
  /\
  (forall reqs, no_duplicate_triples (serve reqs initial)).
Proof.
  assert (Hfirst : forall e rq w text,
     req_method rq = POST ->
     field "item_name" rq <> [] -> field "keywords" rq <> [] ->
     field "location" rq <> [] ->
     complete e (report_messages (field "item_name" rq) (field "keywords" rq))
       = Returned text ->
     In (field "item_name" rq, field "location" rq,
         fst (parse_response (strip text))) (map triple (items w)) ->
     fst (report e rq w) = Body (lit "Item already exists in database.")
     /\ items (snd (report e rq w)) = items w).
  { intros e rq w text Hm Hn Hk Hl Hc Hin.
    rewrite report_filled by assumption. cbv zeta. rewrite Hc.
    destruct (select_existing_some _ _ _ _ Hin) as [r ->]. now split. }
  split; [exact Hfirst|]. split; [|split; [exact serve_no_duplicate|]].
  2:{ intros reqs. apply serve_no_duplicate. constructor. }
  intros e rq w w1 target Hr.
  destruct (report_decide e rq w) as [[_ H] | (Hm & Hn & Hk & Hl & text & H)].
  { rewrite Hr in H. now destruct (H target). }
  cbv zeta in H. destruct H as (Hc & _ & _ & E).
  rewrite Hr in E. injection E as _ ->.
  apply (Hfirst e rq _ text); trivial.
  cbn [items]. unfold insert. rewrite map_app. apply in_or_app. right.
  now left.
Qed.

Lemma C4_witness :
  (fst (report example_env example_request example_world)
     = Body (lit "Item already exists in database.")
   /\ items (snd (report example_env example_request example_world))
      = [example_item])
  /\
  (fst (report example_env example_request
          (snd (report example_env example_request initial)))
     = Body (lit "Item already exists in database.")
   /\ items (snd (report example_env example_request
                    (snd (report example_env example_request initial))))
      = items (snd (report example_env example_request initial)))
  /\ no_duplicate_triples
       (serve [(example_env, RReport, example_request);
               (example_env, RReport, example_request)] initial).
Proof.
  destruct C4_duplicate_rejected as (Hfirst & Hsecond & Hrun & _).
  split; [|split].
  - apply (Hfirst example_env example_request example_world example_completion);
      try reflexivity; try discriminate.
    now left.
  - apply (Hsecond example_env example_request initial _ (lit "/search")).
    reflexivity.
  - apply Hrun. constructor.
Defined.

(** A stored row whose tags are three words: neither five fields nor the
    fallback marker. *)
Lemma C8_counterexample :
  ~ (forall w, reachable w -> tags_five_or_fallback w).
Proof.
  intros H.
  specialize (H (serve [(keys_env, RReport, keys_request)] initial)
                (ex_intro _ [(keys_env, RReport, keys_request)] eq_refl)).
  specialize (H (Item 1 (lit "Keys") (lit "A set of keys.")
                   (lit "keys, ring, metal") (lit "Gym"))).
  destruct H as [H | H].
  - vm_compute. now left.
  - vm_compute in H. discriminate H.
  - vm_compute in H. discriminate H.
Qed.

(** C8 (as amended): the tags of every row stored by a run from the empty
    table are the literal [AI generated], or a line of the text returned to
    one of the reports of the run that has two commas or more (three
    comma-separated fields or more), with the header labels removed and
    trimmed. *)
Theorem C8_tags_origin (reqs : list (env * route * request)) (r : item) :
  In r (items (serve reqs initial)) -> tags_from_completion reqs r.
Proof.
  apply serve_tags; [apply incl_refl | intros x []].
Qed.

Lemma C8_witness :
  tags_from_completion [(keys_env, RReport, keys_request)]
    (Item 1 (lit "Keys") (lit "A set of keys.") (lit "keys, ring, metal")
       (lit "Gym")).
Proof.
  apply C8_tags_origin. vm_compute. now left.
Defined.

(* ------------------------------------------------------------------ *)
(** ** [LIKE], search and chat *)

Section LikeFacts.




Lemma like_any_ext (m m' : str -> bool) (s : str) :
  (forall x, m x = m' x) -> like_any m s = like_any m' s.
Proof.
  intros H. induction s as [|c s IH]; simpl; rewrite H; [reflexivity|].
  now rewrite IH.
Qed.













Lemma item_eqb_eq (a b : item) : item_eqb a b = true <-> a = b.
Proof.
  unfold item_eqb. rewrite !andb_true_iff, !str_eqb_eq, N.eqb_eq.
  destruct a, b; cbn. split.
  - intros [[[[-> ->] ->] ->] ->]. reflexivity.
  - intros [= -> -> -> -> ->]. auto.
Qed.


Lemma search_results_post (rq : request) (w : world) :
  req_method rq = POST ->
  search_results rq w =
  if truthy (field "query" rq)
  then distinct (select_like (items w) (like_pattern (field "query" rq)))
  else [].
Proof. intros Hm. unfold search_results, search. now rewrite Hm. Qed.

Lemma listing_fold (found : list item) (acc : str) :
  fold_left (fun reply r => reply ++ found_line r) found acc =
  acc ++ concat (map found_line found).
Proof.
  revert acc; induction found as [|r found IH]; intros acc; cbn.
  - now rewrite app_nil_r.
  - now rewrite IH, <- app_assoc.
Qed.

Lemma chat_reply_found (e : env) (rq : request) (w : world) :
  field "message" rq <> [] ->
  select_like (items w) (like_pattern (field "message" rq)) <> [] ->
  chat_reply e rq w =
  (listing (select_like (items w) (like_pattern (field "message" rq))), w).
Proof.
  intros Hm Hf. unfold chat_reply.
  destruct (field "message" rq) as [|c m]; [congruence|]. cbn [truthy].
  destruct (select_like _ _) as [|r found]; [congruence|].
  unfold listing. now rewrite listing_fold.
Qed.

Lemma chat_reply_none (e : env) (rq : request) (w : world) :
  field "message" rq <> [] ->
  select_like (items w) (like_pattern (field "message" rq)) = [] ->
  chat_reply e rq w =
  (relayed (complete e (chat_messages (field "message" rq))),
   call_logged w (chat_messages (field "message" rq))).
Proof.
  intros Hm Hf. unfold chat_reply. rewrite Hf.
  destruct (field "message" rq) as [|c m]; [congruence|]. cbn [truthy].
  now destruct (complete e _).
Qed.


Lemma chat_post (e : env) (rq : request) (w : world) :
  req_method rq = POST ->
  reply_of (fst (chat e rq w)) = fst (chat_reply e rq w)
  /\ snd (chat e rq w) = snd (chat_reply e rq w).
Proof.
  intros Hm. unfold chat. rewrite Hm.
  destruct (chat_reply e rq w) as [reply w'].
  destruct (x_requested_with rq) as [v|]; [|now split].
  destruct (str_eqb v _); now split.
Qed.

End LikeFacts.













(* ------------------------------------------------------------------ *)
(** ** Further properties: the outcomes of a report *)

(** X1.  When the call to the completion service raises, a filled-in
    report answers [Groq API Error: ] followed by the error text; the call
    was made once and the table is as it was. *)
Theorem report_service_failure (e : env) (rq : request) (w : world)
    (error : str) :
  req_method rq = POST ->
  field "item_name" rq <> [] -> field "keywords" rq <> [] ->
  field "location" rq <> [] ->
  complete e (report_call rq) = Raised error ->
  report e rq w =
  (Body (lit "Groq API Error: " ++ error),
   World (items w) (llm_log w ++ [report_call rq])).
Proof.
  intros Hm Hn Hk Hl Hc. rewrite report_filled by assumption.
  cbv zeta. fold (report_call rq). now rewrite Hc.
Qed.

Lemma report_service_failure_witness :
  report failing_env example_request example_world =
  (Body (lit "Groq API Error: timeout"),
   World [example_item] [report_call example_request]).
Proof.
  apply (@report_service_failure failing_env example_request example_world
           (lit "timeout")); try reflexivity; discriminate.
Defined.

(** X2.  When the [INSERT] raises, the report answers [Database Error: ]
    followed by the error text and the table is as it was. *)
Theorem report_insert_failure (e : env) (rq : request) (w : world)
    (text error : str) :
  req_method rq = POST ->
  field "item_name" rq <> [] -> field "keywords" rq <> [] ->
  field "location" rq <> [] ->
  complete e (report_call rq) = Returned text ->
  ~ In (field "item_name" rq, field "location" rq,
        fst (parse_response (strip text))) (map triple (items w)) ->
  insert_error e = Some error ->
  report e rq w =
  (Body (lit "Database Error: " ++ error),
   World (items w) (llm_log w ++ [report_call rq])).
Proof.
  intros Hm Hn Hk Hl Hc Hnew Hi. rewrite report_filled by assumption.
  cbv zeta. fold (report_call rq). rewrite Hc.
  apply select_existing_none in Hnew. now rewrite Hnew, Hi.
Qed.

Lemma report_insert_failure_witness :
  report locked_env example_request initial =
  (Body (lit "Database Error: database is locked"),
   World [] [report_call example_request]).
Proof.
  apply (@report_insert_failure locked_env example_request initial
           example_completion (lit "database is locked"));
    try reflexivity; try discriminate.
  intros [].
Defined.

(** X3.  A filled-in report whose completion is returned, whose triple is
    not in the table and whose [INSERT] does not raise redirects to
    [/search] and adds one row at the end of the table: the next key, the
    trimmed name and location of the form, and the description and tags
    parsed from the trimmed completion. *)
Theorem report_stores_row (e : env) (rq : request) (w : world) (text : str) :
  req_method rq = POST ->
  field "item_name" rq <> [] -> field "keywords" rq <> [] ->
  field "location" rq <> [] ->
  complete e (report_call rq) = Returned text ->
  ~ In (field "item_name" rq, field "location" rq,
        fst (parse_response (strip text))) (map triple (items w)) ->
  insert_error e = None ->
  report e rq w =
  (Redirect (lit "/search"),
   World (items w ++ [new_row (items w) rq text])
         (llm_log w ++ [report_call rq])).
Proof.
  intros Hm Hn Hk Hl Hc Hnew Hi. rewrite report_filled by assumption.
  cbv zeta. fold (report_call rq). rewrite Hc.
  apply select_existing_none in Hnew. now rewrite Hnew, Hi.
Qed.

Lemma report_stores_row_witness :
  report keys_env keys_request example_world =
  (Redirect (lit "/search"),
   World [example_item;
          Item 2 (lit "Keys") (lit "A set of keys.")
            (lit "keys, ring, metal") (lit "Gym")]
         [report_call keys_request]).
Proof.
  apply (@report_stores_row keys_env keys_request example_world
           (lit "Description:" ++ [nl] ++ lit "A set of keys."
            ++ [nl] ++ [nl] ++ lit "Tags:" ++ [nl]
            ++ lit "keys, ring, metal"));
    try reflexivity; try discriminate.
  intros [H | []]. discriminate H.
Defined.

(* ------------------------------------------------------------------ *)
(** ** Further properties: the table and the calls along a run *)

Section RunFacts.

Lemma report_log (e : env) (rq : request) (w : world) :
  llm_log (snd (report e rq w)) = llm_log w
  \/ llm_log (snd (report e rq w)) = llm_log w ++ [report_call rq].
Proof.
  destruct (req_method rq) eqn:Hm.
  { left. unfold report. now rewrite Hm. }
  destruct (field "item_name" rq) as [|n0 n] eqn:En.
  { left. rewrite report_unfilled; auto. }
  destruct (field "keywords" rq) as [|k0 k] eqn:Ek.
  { left. rewrite report_unfilled; auto. }
  destruct (field "location" rq) as [|l0 l] eqn:El.
  { left. rewrite report_unfilled; auto. }
  right. rewrite report_filled by (rewrite ?En, ?Ek, ?El; congruence).
  unfold report_call. rewrite En, Ek, El. cbv zeta.
  destruct (complete e _); [|reflexivity].
  destruct (select_existing _ _ _ _); [reflexivity|].
  now destruct (insert_error e).
Qed.

Lemma chat_reply_log (e : env) (rq : request) (w : world) :
  llm_log (snd (chat_reply e rq w)) = llm_log w
  \/ llm_log (snd (chat_reply e rq w)) =
     llm_log w ++ [chat_messages (field "message" rq)].
Proof.
  unfold chat_reply. destruct (truthy _); [|now left].
  destruct (select_like _ _); [|now left].
  right. now destruct (complete e _).
Qed.

Lemma chat_get (e : env) (rq : request) (w : world) :
  req_method rq = GET -> snd (chat e rq w) = w.
Proof. intros Hm. unfold chat. now rewrite Hm. Qed.

Lemma chat_world (e : env) (rq : request) (w : world) :
  req_method rq = POST -> snd (chat e rq w) = snd (chat_reply e rq w).
Proof. intros Hm. now destruct (chat_post e rq w Hm). Qed.

Lemma report_get (e : env) (rq : request) (w : world) :
  req_method rq = GET -> snd (report e rq w) = w.
Proof. intros Hm. unfold report. now rewrite Hm. Qed.

Lemma next_id_above (t : table) (r : item) :
  In r t -> (id r < next_id t)%N.
Proof.
  unfold next_id. induction t as [|a t IH]; [intros []|].
  intros [<- | H]; cbn [map fold_right].
  - lia.
  - specialize (IH H). lia.
Qed.

Lemma sorted_snoc (l : list N) (a : N) :
  StronglySorted N.lt l -> (forall x, In x l -> (x < a)%N) ->
  StronglySorted N.lt (l ++ [a]).
Proof.
  induction 1 as [|x l Hs IH Hx]; intros Ha; cbn [app].
  - constructor; constructor.
  - constructor.
    + apply IH. intros y Hy. apply Ha. now right.
    + apply Forall_app. split; [assumption|].
      constructor; [|constructor]. apply Ha. now left.
Qed.

Lemma sorted_nodup (l : list N) : StronglySorted N.lt l -> NoDup l.
Proof.
  induction 1 as [|x l Hs IH Hx]; constructor; [|assumption].
  intros Hin. rewrite Forall_forall in Hx. specialize (Hx x Hin). lia.
Qed.

Lemma insert_keys_ascending (t : table) (n d tg l : str) :
  keys_ascending t -> keys_ascending (insert t n d tg l).
Proof.
  unfold keys_ascending, insert. intros H. rewrite map_app. cbn [map id].
  apply sorted_snoc; [assumption|].
  intros x Hx. apply in_map_iff in Hx as (r & <- & Hr).
  now apply next_id_above.
Qed.

Lemma serve_keys_ascending (reqs : list (env * route * request)) (w : world) :
  keys_ascending (items w) -> keys_ascending (items (serve reqs w)).
Proof.
  revert w; induction reqs as [|[[e rt] rq] reqs IH]; intros w H; [exact H|].
  cbn [serve]. apply IH.
  destruct (handle_items e rt rq w) as [-> | (_ & text & _ & _ & ->)];
    [assumption|].
  now apply insert_keys_ascending.
Qed.

Lemma filter_all (A : Type) (f : A -> bool) (l : list A) :
  (forall x, In x l -> f x = true) -> filter f l = l.
Proof.
  induction l as [|a l IH]; intros H; [reflexivity|].
  cbn [filter]. rewrite (H a (or_introl eq_refl)). f_equal.
  apply IH. intros x Hx. apply H. now right.
Qed.

(** With distinct keys [DISTINCT] drops nothing. *)
Lemma distinct_keys (rows : list item) :
  NoDup (map id rows) -> distinct rows = rows.
Proof.
  induction rows as [|r rows IH]; [reflexivity|].
  cbn [map]. intros H. apply NoDup_cons_iff in H as [Hr Hnd].
  cbn [distinct]. rewrite (IH Hnd). f_equal.
  apply filter_all. intros x Hx. apply negb_true_iff.
  destruct (item_eqb r x) eqn:E; [|reflexivity].
  apply item_eqb_eq in E. subst x. exfalso. apply Hr. now apply in_map.
Qed.

Lemma nodup_keys_filter (f : item -> bool) (rows : list item) :
  NoDup (map id rows) -> NoDup (map id (filter f rows)).
Proof.
  induction rows as [|r rows IH]; [trivial|].
  cbn [map filter]. intros H. apply NoDup_cons_iff in H as [Hr Hnd].
  destruct (f r); [|now apply IH].
  cbn [map]. constructor; [|now apply IH].
  intros Hin. apply Hr. apply in_map_iff in Hin as (x & Hx & Hin).
  apply filter_In in Hin as [Hin _]. rewrite <- Hx. now apply in_map.
Qed.

End RunFacts.

(** X4.  Rows are only ever added, at the end of the table: a request
    leaves the table as it is unless it is a posted report, which adds at
    most one row; so after any requests the table is the old one followed
    by at most as many rows as there were requests. *)
Theorem table_only_grows (reqs : list (env * route * request)) (w : world) :
  (forall e rt rq,
     items (snd (handle e rt rq w)) = items w
     \/ (rt = RReport /\ req_method rq = POST /\
         exists text,
           items (snd (handle e rt rq w)) =
           items w ++ [new_row (items w) rq text]))
  /\ exists added,
       items (serve reqs w) = items w ++ added /\ length added <= length reqs.
Proof.
  split.
  - intros e rt rq. destruct rt; cbn [handle]; try now left.
    + destruct (report_decide e rq w)
        as [[H _] | (Hm & _ & _ & _ & text & H)]; [now left|].
      right. repeat split; trivial. exists text. cbv zeta in H.
      destruct H as (_ & _ & _ & ->). reflexivity.
    + left. apply chat_items.
  - revert w; induction reqs as [|[[e rt] rq] reqs IH]; intros w.
    + exists []. now rewrite app_nil_r.
    + cbn [serve].
      destruct (IH (snd (handle e rt rq w))) as (added & E & Hlen).
      destruct (handle_items e rt rq w) as [H | (_ & text & _ & _ & H)];
        rewrite H in E.
      * exists added. split; [assumption | simpl; lia].
      * unfold insert in E. rewrite <- app_assoc in E.
        eexists. split; [exact E | simpl; lia].
Qed.

(** X5.  Each request makes at most one call to the completion service:
    a report sends its prompt, a chat the persona and the trimmed message.
    The home page, a search and every [GET] request leave the table and the
    log of calls as they are. *)
Theorem calls_per_request (e : env) (rt : route) (rq : request) (w : world) :
  (llm_log (snd (handle e rt rq w)) = llm_log w
   \/ (rt = RReport /\
       llm_log (snd (handle e rt rq w)) = llm_log w ++ [report_call rq])
   \/ (rt = RChat /\
       llm_log (snd (handle e rt rq w)) =
       llm_log w ++ [chat_messages (field "message" rq)]))
  /\ (rt = RIndex \/ rt = RSearch \/ req_method rq = GET ->
      snd (handle e rt rq w) = w).
Proof.
  split.
  - destruct rt; cbn [handle]; try now left.
    + destruct (report_log e rq w) as [H | H]; auto.
    + destruct (req_method rq) eqn:Hm.
      * left. now rewrite chat_get.
      * rewrite chat_world by assumption.
        destruct (chat_reply_log e rq w) as [H | H]; auto.
  - intros [-> | [-> | Hm]]; try reflexivity.
    destruct rt; cbn [handle]; try reflexivity.
    + now apply report_get.
    + now apply chat_get.
Qed.

Lemma calls_per_request_witness :
  snd (handle example_env RSearch name_query_request example_world)
    = example_world
  /\ snd (handle example_env RReport
            (Request GET (form example_request) None) example_world)
    = example_world.
Proof.
  split.
  - apply (proj2 (@calls_per_request example_env RSearch name_query_request
                    example_world)). right. now left.
  - apply (proj2 (@calls_per_request example_env RReport
                    (Request GET (form example_request) None) example_world)).
    right. now right.
Defined.

(** X6.  The keys given by [AUTOINCREMENT] grow along the table, so no two
    rows share a key, however many requests are served. *)
Theorem keys_stay_ascending (reqs : list (env * route * request)) (w : world) :
  keys_ascending (items w) ->
  keys_ascending (items (serve reqs w))
  /\ NoDup (map id (items (serve reqs w))).
Proof.
  intros H. apply (serve_keys_ascending reqs) in H.
  split; [assumption | now apply sorted_nodup].
Qed.

Lemma keys_stay_ascending_witness :
  keys_ascending
    (items (serve [(example_env, RReport, example_request);
                   (keys_env, RReport, keys_request)] initial))
  /\ NoDup (map id
       (items (serve [(example_env, RReport, example_request);
                      (keys_env, RReport, keys_request)] initial))).
Proof.
  apply keys_stay_ascending. constructor.
Defined.

(** X7.  On a table whose keys are distinct, as every table built by the
    application is, the [DISTINCT] of the search drops nothing: a search
    that does not raise shows what the same [SELECT] without [DISTINCT],
    the one the chat runs, returns, and shows no row twice. *)
Theorem search_distinct_drops_nothing (rq : request) (w : world) :
  req_method rq = POST ->
  search_raises rq w = false ->
  field "query" rq <> [] ->
  NoDup (map id (items w)) ->
  search_results rq w = select_like (items w) (like_pattern (field "query" rq))
  /\ NoDup (search_results rq w).
Proof.
  intros Hm _ Hq Hnd. rewrite (@search_results_post rq w Hm).
  destruct (field "query" rq) as [|c q]; [congruence|]. cbn [truthy].
  unfold select_like.
  assert (Hf : NoDup (map id (filter (like_row (like_pattern (c :: q)))
                                     (items w))))
    by now apply nodup_keys_filter.
  rewrite (distinct_keys _ Hf). split; [reflexivity|].
  now apply NoDup_map_inv in Hf.
Qed.

Lemma search_distinct_drops_nothing_witness :
  search_results name_query_request example_world
    = select_like (items example_world)
        (like_pattern (field "query" name_query_request))
  /\ NoDup (search_results name_query_request example_world).
Proof.
  apply (@search_distinct_drops_nothing name_query_request example_world).
  - reflexivity.
  - reflexivity.
  - discriminate.
  - repeat constructor. intros [].
Defined.

(* ------------------------------------------------------------------ *)
(** ** Further properties: what the parser gives and what is stored *)

Section ShapeFacts.

Lemma in_lstrip (c : char) (s : str) : In c (lstrip s) -> In c s.
Proof.
  induction s as [|x s IH]; [trivial|].
  cbn [lstrip]. destruct (isspace x); [|trivial].
  intros H. right. now apply IH.
Qed.

Lemma in_strip (c : char) (s : str) : In c (strip s) -> In c s.
Proof.
  unfold strip, rstrip. intros H.
  apply in_lstrip. apply in_rev in H. apply in_lstrip in H.
  now apply in_rev in H.
Qed.

Lemma split_one_line (sep : char) (s l : str) :
  In l (split sep s) -> ~ In sep l.
Proof.
  revert l; induction s as [|c s IH]; intros l.
  - intros [<- | []] [].
  - destruct (N.eqb_spec c sep) as [->|Hc].
    + rewrite split_cons_sep. intros [<- | H]; [intros [] | now apply IH].
    + apply N.eqb_neq in Hc.
      destruct (@split_cons_other sep c s Hc) as (h & t & E1 & E2).
      rewrite E2. intros [<- | H].
      * intros [-> | Hin]; [now rewrite N.eqb_refl in Hc|].
        apply (IH h); [rewrite E1; now left | assumption].
      * apply IH. rewrite E1. now right.
Qed.

Lemma in_join (c : char) (sep : str) (ls : list str) :
  In c (join sep ls) -> In c sep \/ exists l, In l ls /\ In c l.
Proof.
  induction ls as [|a ls IH]; [intros []|].
  destruct ls as [|b ls].
  - cbn. intros H. right. exists a. auto.
  - change (join sep (a :: b :: ls)) with (a ++ sep ++ join sep (b :: ls)).
    intros H. apply in_app_or in H as [H | H].
    + right. exists a. split; [now left | assumption].
    + apply in_app_or in H as [H | H]; [now left|].
      destruct (IH H) as [Hs | (l & Hl & Hc)]; [now left|].
      right. exists l. split; [now right | assumption].
Qed.

Lemma fallback_shape :
  lit "AI generated" <> [] /\ trimmed (lit "AI generated")
  /\ one_line (lit "AI generated").
Proof.
  split; [discriminate|]. split; [reflexivity|].
  intros H. cbv in H. intuition discriminate.
Qed.

(** What [digest] gives from lines that are trimmed and without line
    feed. *)
Lemma digest_shape (ls : list str) :
  (forall l, In l ls -> trimmed l /\ one_line l) ->
  (trimmed (fst (digest ls)) /\ one_line (fst (digest ls)))
  /\ (snd (digest ls) <> [] /\ trimmed (snd (digest ls))
      /\ one_line (snd (digest ls))).
Proof.
  intros H. unfold digest. cbn [fst snd]. split.
  - split; [apply strip_idem|].
    intros Hin. apply in_strip, in_join in Hin as [Hin | (l & Hl & Hin)].
    + cbv in Hin. intuition discriminate.
    + apply filter_In in Hl as [Hl _]. now apply (H l Hl).
  - destruct (tag_lines ls) as [|x F] eqn:E; [exact fallback_shape|].
    assert (Hin : In (last (x :: F) []) (x :: F))
      by (apply last_in; discriminate).
    rewrite <- E in Hin at 2. apply filter_In in Hin as [Hin Hq].
    destruct (H _ Hin) as [Ht Ho]. repeat split; trivial.
    intros Hnil. rewrite Hnil in Hq. discriminate Hq.
Qed.

Lemma parse_shape (t : str) :
  (trimmed (fst (parse_response t)) /\ one_line (fst (parse_response t)))
  /\ (snd (parse_response t) <> [] /\ trimmed (snd (parse_response t))
      /\ one_line (snd (parse_response t))).
Proof.
  rewrite parse_response_digest. apply digest_shape.
  intros l Hl. apply in_map_iff in Hl as (x & <- & Hx). split.
  - apply strip_idem.
  - intros Hin. apply in_strip in Hin.
    exact (split_one_line _ _ _ Hx Hin).
Qed.

(** Either the table is as it was, or a report added the row [new_row]
    and its name and location were filled in. *)
Lemma handle_adds (e : env) (rt : route) (rq : request) (w : world) :
  items (snd (handle e rt rq w)) = items w
  \/ (field "item_name" rq <> [] /\ field "location" rq <> [] /\
      exists text,
        items (snd (handle e rt rq w)) =
        items w ++ [new_row (items w) rq text]).
Proof.
  destruct rt; cbn [handle]; try now left.
  - destruct (report_decide e rq w)
      as [[H _] | (_ & Hn & _ & Hl & text & H)]; [now left|].
    right. repeat split; trivial. exists text. cbv zeta in H.
    destruct H as (_ & _ & _ & ->). reflexivity.
  - left. apply chat_items.
Qed.

Lemma new_row_well_kept (t : table) (rq : request) (text : str) :
  field "item_name" rq <> [] -> field "location" rq <> [] ->
  well_kept (new_row t rq text).
Proof.
  intros Hn Hl. unfold well_kept, new_row. cbn [item_name location description tags].
  destruct (parse_shape (strip text)) as [Hd Ht].
  repeat split; trivial; try apply Hd; try apply Ht;
    unfold field; apply strip_idem.
Qed.

Lemma blank_not_in (c : char) (ws : str) :
  blank ws = true -> isspace c = false -> ~ In c ws.
Proof.
  unfold blank. rewrite forallb_forall. intros H Hc Hin.
  rewrite (H c Hin) in Hc. discriminate Hc.
Qed.

Lemma clean_blank_prefix (ws s : str) :
  blank ws = true -> clean_text (ws ++ s) = ws ++ clean_text s.
Proof.
  intros H. unfold clean_text.
  change (lit "Description:") with (68%N :: lit "escription:").
  change (lit "Tags:") with (84%N :: lit "ags:").
  rewrite !replace_through; trivial; now apply blank_not_in.
Qed.

Lemma replace_blank_suffix (o : char) (old s ws : str) :
  blank ws = true -> isspace o = false ->
  forallb (fun c => negb (isspace c)) (o :: old) = true ->
  replace (o :: old) [] (s ++ ws) = replace (o :: old) [] s ++ ws.
Proof.
  intros Hws Ho Hold. destruct ws as [|x ws'] eqn:E.
  - now rewrite !app_nil_r.
  - rewrite <- (app_nil_r (x :: ws')) at 1.
    rewrite replace_passes.
    + rewrite replace_nil by discriminate. now rewrite app_nil_r.
    + intros Hin. rewrite forallb_forall in Hold.
      specialize (Hold x Hin). apply negb_true_iff in Hold.
      cbn [blank forallb] in Hws. apply andb_true_iff in Hws as [Hx _].
      rewrite Hx in Hold. discriminate Hold.
    + now apply blank_not_in.
Qed.

Lemma clean_blank_suffix (s ws : str) :
  blank ws = true -> clean_text (s ++ ws) = clean_text s ++ ws.
Proof.
  intros H. unfold clean_text.
  change (lit "Description:") with (68%N :: lit "escription:").
  change (lit "Tags:") with (84%N :: lit "ags:").
  rewrite !replace_blank_suffix; trivial.
Qed.

Lemma lstrip_split (s : str) :
  exists pre, blank pre = true /\ s = pre ++ lstrip s.
Proof.
  induction s as [|c s (pre & Hb & E)]; [now exists []|].
  cbn [lstrip]. destruct (isspace c) eqn:Ec.
  - exists (c :: pre). split; [cbn; now rewrite Ec | now rewrite E at 1].
  - now exists [].
Qed.

Lemma blank_rev (s : str) : blank (rev s) = blank s.
Proof.
  unfold blank. induction s as [|c s IH]; [reflexivity|].
  cbn [rev forallb]. rewrite forallb_app, IH. cbn. 
  rewrite andb_true_r. apply andb_comm.
Qed.

Lemma rstrip_split (s : str) :
  exists post, blank post = true /\ s = rstrip s ++ post.
Proof.
  destruct (lstrip_split (rev s)) as (pre & Hb & E).
  exists (rev pre). split; [now rewrite blank_rev|].
  unfold rstrip. rewrite <- rev_app_distr, <- E. now rewrite rev_involutive.
Qed.

Lemma strip_blank_prefix (ws s : str) :
  blank ws = true -> strip (ws ++ s) = strip s.
Proof.
  induction ws as [|c ws IH]; [trivial|].
  cbn [blank forallb]. intros H. apply andb_true_iff in H as [Hc H].
  cbn [app]. rewrite strip_space_cons by assumption. now apply IH.
Qed.

Lemma strip_blank_suffix (s ws : str) :
  blank ws = true -> strip (s ++ ws) = strip s.
Proof.
  induction ws as [|c ws IH] using rev_ind; [now rewrite app_nil_r|].
  unfold blank. rewrite forallb_app. cbn [forallb].
  intros H. apply andb_true_iff in H as [H Hc].
  rewrite andb_true_r in Hc.
  rewrite app_assoc, strip_space_snoc by assumption. now apply IH.
Qed.

Lemma split_line (a b : str) :
  ~ In nl a -> split nl (a ++ nl :: b) = a :: split nl b.
Proof.
  intros Ha.
  destruct (@split_app_nosep nl a (nl :: b)) as (h & t & E1 & E2).
  { intros c Hc ->. now apply Ha. }
  rewrite split_cons_sep in E1. injection E1 as <- <-.
  now rewrite E2, app_nil_r.
Qed.

Lemma split_last_line (g : str) : ~ In nl g -> split nl g = [g].
Proof.
  intros Hg.
  destruct (@split_app_nosep nl g []) as (h & t & E1 & E2).
  { intros c Hc ->. now apply Hg. }
  cbn in E1. injection E1 as <- <-.
  now rewrite !app_nil_r in E2.
Qed.

End ShapeFacts.

(** X8.  Whatever the completion, the parsed description has no white
    space at either end and no line feed, and the parsed tags are not
    empty, have no white space at either end and no line feed. *)
Theorem parser_output_shape (t : str) :
  (trimmed (fst (parse_response t)) /\ one_line (fst (parse_response t)))
  /\ (snd (parse_response t) <> [] /\ trimmed (snd (parse_response t))
      /\ one_line (snd (parse_response t))).
Proof. apply parse_shape. Qed.

(** X9.  Every row the application stores has a name and a location that
    are not empty and are trimmed, a description that is trimmed and on
    one line, and tags that are not empty, trimmed and on one line; this
    holds after any requests when it holds before. *)
Theorem stored_rows_well_kept (reqs : list (env * route * request))
    (w : world) :
  (forall r, In r (items w) -> well_kept r) ->
  forall r, In r (items (serve reqs w)) -> well_kept r.
Proof.
  revert w; induction reqs as [|[[e rt] rq] reqs IH]; intros w Hw; [exact Hw|].
  cbn [serve]. apply IH. intros r Hr.
  destruct (handle_adds e rt rq w) as [E | (Hn & Hl & text & E)];
    rewrite E in Hr; [now apply Hw|].
  apply in_app_or in Hr as [Hr | [<- | []]]; [now apply Hw|].
  now apply new_row_well_kept.
Qed.

Lemma stored_rows_well_kept_witness :
  well_kept (Item 1 (lit "Keys") (lit "A set of keys.")
               (lit "keys, ring, metal") (lit "Gym")).
Proof.
  apply (@stored_rows_well_kept [(keys_env, RReport, keys_request)] initial).
  - intros r [].
  - now left.
Defined.

(** X10.  A completion in the format the prompt asks for, with a
    description on one line that has at most one comma and a tag line that
    has two commas or more, is parsed into that description and that tag
    line, each with the labels removed and trimmed. *)
Theorem formatted_completion_parsed (d g : str) :
  one_line d -> commas d <= 1 ->
  one_line g -> 2 <= commas g ->
  parse_response (formatted d g) = (tidy d, tidy g).
Proof.
  intros Hd Hcd Hg Hcg.
  assert (Hlines : lines_of (formatted d g) =
                   [lit "Description:"; d; []; lit "Tags:"] ++ g :: []).
  { unfold lines_of.
    change (formatted d g)
      with (lit "Description:" ++ nl ::
              (d ++ nl :: ([] ++ nl :: (lit "Tags:" ++ nl :: g)))).
    rewrite !split_line, split_last_line; trivial;
      intros H; cbv in H; intuition discriminate. }
  rewrite parse_by_lines, Hlines, digest_last_tag; trivial.
  - rewrite app_nil_r, prose_lines_all.
    + change (map tidy [lit "Description:"; d; []; lit "Tags:"])
        with (repeat [] 1 ++ [tidy d] ++ repeat [] 2).
      rewrite strip_join_pad. cbn [join]. unfold tidy. now rewrite strip_idem.
    + intros l [<- | [<- | [<- | [<- | []]]]]; trivial; cbv; lia.
  - unfold qualifies. now apply Nat.leb_le.
Qed.

Lemma formatted_completion_parsed_witness :
  parse_response
    (formatted (lit " Keys on a ring, found in the gym. ")
               (lit "keys, ring, metal"))
  = (lit "Keys on a ring, found in the gym.", lit "keys, ring, metal").
Proof.
  apply (@formatted_completion_parsed
           (lit " Keys on a ring, found in the gym. ")
           (lit "keys, ring, metal"));
    try (intros H; cbv in H; intuition discriminate);
    vm_compute; lia.
Defined.

(** X11.  White space around the completion does not count: the parser
    gives the same for a text and for the text trimmed. *)
Theorem parser_ignores_outer_space (t : str) :
  parse_response (strip t) = parse_response t.
Proof.
  rewrite !parse_response_digest. unfold response_lines.
  destruct (lstrip_split t) as (pre & Hpre & E1).
  destruct (rstrip_split (lstrip t)) as (post & Hpost & E2).
  fold (strip t) in E2.
  assert (E : t = pre ++ strip t ++ post) by (now rewrite <- E2).
  rewrite E at 2.
  rewrite clean_blank_prefix, clean_blank_suffix by assumption.
  now rewrite strip_blank_prefix, strip_blank_suffix.
Qed.

(** X12.  When the completion is empty or white space only, the row that
    is stored has an empty description and the fallback tags. *)
Theorem blank_completion_stored (e : env) (rq : request) (w : world)
    (text : str) :
  req_method rq = POST ->
  field "item_name" rq <> [] -> field "keywords" rq <> [] ->
  field "location" rq <> [] ->
  complete e (report_call rq) = Returned text ->
  blank text = true ->
  ~ In (field "item_name" rq, field "location" rq, []) (map triple (items w)) ->
  insert_error e = None ->
  report e rq w =
  (Redirect (lit "/search"),
   World (items w ++
          [Item (next_id (items w)) (field "item_name" rq) []
                (lit "AI generated") (field "location" rq)])
         (llm_log w ++ [report_call rq])).
Proof.
  intros Hm Hn Hk Hl Hc Hb Hnew Hi. rewrite report_filled by assumption.
  cbv zeta. fold (report_call rq). rewrite Hc, (strip_blank _ Hb).
  change (parse_response []) with (@nil char, lit "AI generated").
  cbn [fst snd]. apply select_existing_none in Hnew. now rewrite Hnew, Hi.
Qed.

Lemma blank_completion_stored_witness :
  report (Env (fun _ => Returned (lit "  " ++ [nl])) None) keys_request initial
  = (Redirect (lit "/search"),
     World [Item 1 (lit "Keys") [] (lit "AI generated") (lit "Gym")]
           [report_call keys_request]).
Proof.
  apply (@blank_completion_stored
           (Env (fun _ => Returned (lit "  " ++ [nl])) None) keys_request
           initial (lit "  " ++ [nl]));
    try reflexivity; try discriminate.
  intros [].
Defined.

(* ------------------------------------------------------------------ *)
(** ** Further properties: finding what was stored *)

Section FindFacts.

Lemma contains_here (p a b : str) : contains p (a ++ p ++ b) = true.
Proof.
  induction a as [|c a IH].
  - cbn [app]. destruct (p ++ b) eqn:E; cbn [contains];
      rewrite <- E, startswith_app; reflexivity.
  - cbn [app contains]. rewrite IH. apply orb_true_r.
Qed.

Lemma contains_refl (p : str) : contains p p = true.
Proof.
  rewrite <- (app_nil_r p) at 2. apply (contains_here p [] []).
Qed.





Lemma lower_idem (c : char) : lower (lower c) = lower c.
Proof.
  unfold lower.
  destruct ((65 <=? c) && (c <=? 90))%N eqn:E; [|now rewrite E].
  apply andb_true_iff in E as [H1 H2].
  apply N.leb_le in H1, H2.
  destruct ((65 <=? c + 32) && (c + 32 <=? 90))%N eqn:E'; [|reflexivity].
  apply andb_true_iff in E' as [_ H3]. apply N.leb_le in H3. lia.
Qed.

Lemma lower_keeps_wildcard (c x : char) :
  x = percent \/ x = underscore -> N.eqb (lower c) x = N.eqb c x.
Proof.
  intros Hx. unfold lower.
  destruct ((65 <=? c) && (c <=? 90))%N eqn:E; [|reflexivity].
  apply andb_true_iff in E as [H1 H2]. apply N.leb_le in H1, H2.
  destruct (N.eqb_spec (c + 32) x) as [E1|E1], (N.eqb_spec c x) as [E2|E2];
    trivial; exfalso; unfold percent, underscore in Hx; lia.
Qed.

(** [LIKE] does not see the case of the ASCII letters of the pattern. *)
Lemma like_lower_pattern (p s : str) : pattern_compare (map lower p) s = pattern_compare p s.
Proof.
  revert s; induction p as [|c p IH]; intros s; [reflexivity|].
  cbn [map pattern_compare].
  rewrite (lower_keeps_wildcard c (or_introl eq_refl)).
  rewrite (lower_keeps_wildcard c (or_intror eq_refl)), lower_idem.
  destruct (N.eqb c percent).
  - apply like_any_ext. exact IH.
  - destruct s as [|d s]; [reflexivity|]. now rewrite IH.
Qed.

Lemma like_pattern_lower (q : str) :
  like_pattern (map lower q) = map lower (like_pattern q).
Proof. unfold like_pattern. now rewrite !map_app. Qed.

Lemma lower_keeps_nul (c : char) : N.eqb (lower c) 0 = N.eqb c 0.
Proof.
  unfold lower.
  destruct ((65 <=? c) && (c <=? 90))%N eqn:E; [|reflexivity].
  apply andb_true_iff in E as [H1 H2]. apply N.leb_le in H1, H2.
  destruct (N.eqb_spec (c + 32) 0) as [E1|E1], (N.eqb_spec c 0) as [E2|E2];
    trivial; exfalso; lia.
Qed.

Lemma c_string_lower (s : str) :
  c_string (map lower s) = map lower (c_string s).
Proof.
  induction s as [|c s IH]; [reflexivity|].
  cbn [map c_string]. rewrite lower_keeps_nul.
  destruct (N.eqb c 0); [reflexivity|]. cbn [map]. now rewrite IH.
Qed.

Lemma like_lower (p s : str) : like (map lower p) s = like p s.
Proof. unfold like. rewrite c_string_lower. apply like_lower_pattern. Qed.

Lemma like_row_same_case (q1 q2 : str) (r : item) :
  map lower q1 = map lower q2 ->
  like_row (like_pattern q1) r = like_row (like_pattern q2) r.
Proof.
  intros H. unfold like_row.
  rewrite <- !(like_lower (like_pattern q1)).
  rewrite <- !(like_lower (like_pattern q2)).
  now rewrite <- !like_pattern_lower, H.
Qed.



End FindFacts.





(** X15.  Two queries that differ only in the case of ASCII letters show
    the same rows. *)
Theorem search_ignores_query_case (rq1 rq2 : request) (w : world) :
  req_method rq1 = POST -> req_method rq2 = POST ->
  map lower (field "query" rq1) = map lower (field "query" rq2) ->
  search_results rq1 w = search_results rq2 w.
Proof.
  intros H1 H2 Hq.
  rewrite (@search_results_post rq1 w H1), (@search_results_post rq2 w H2).
  destruct (field "query" rq1) as [|c1 q1] eqn:E1,
           (field "query" rq2) as [|c2 q2] eqn:E2;
    try discriminate Hq; [reflexivity|].
  cbn [truthy]. unfold select_like. f_equal.
  apply filter_ext. intros r. now apply like_row_same_case.
Qed.

Lemma search_ignores_query_case_witness :
  search_results lower_request example_world
  = search_results upper_request example_world.
Proof.
  apply (@search_ignores_query_case lower_request upper_request example_world);
    reflexivity.
Defined.

(** X16.  The chat looks the table up as the search does: on a table with
    distinct keys, a message for which a search shows rows is answered
    with the list of exactly those rows and no call to the service; a
    non-empty message for which a search shows nothing is sent to the
    service. *)
Theorem chat_lists_what_search_shows (e : env) (rq_chat rq_search : request)
    (w : world) :
  req_method rq_chat = POST -> req_method rq_search = POST ->
  field "message" rq_chat = field "query" rq_search ->
  NoDup (map id (items w)) ->
  (search_results rq_search w <> [] ->
   reply_of (fst (chat e rq_chat w)) = listing (search_results rq_search w)
   /\ snd (chat e rq_chat w) = w)
  /\ (search_results rq_search w = [] -> field "message" rq_chat <> [] ->
      reply_of (fst (chat e rq_chat w)) =
        relayed (complete e (chat_messages (field "message" rq_chat)))
      /\ snd (chat e rq_chat w) =
         call_logged w (chat_messages (field "message" rq_chat))).
Proof.
  intros Hc Hs Hq Hnd.
  destruct (chat_post e rq_chat w Hc) as [-> ->].
  rewrite (@search_results_post rq_search w Hs), <- Hq.
  destruct (field "message" rq_chat) as [|c m] eqn:E.
  { cbn [truthy]. split; [congruence|]. intros _ H. congruence. }
  cbn [truthy]. unfold select_like.
  rewrite distinct_keys by now apply nodup_keys_filter.
  fold (select_like (items w) (like_pattern (c :: m))). split.
  - intros Hf. rewrite chat_reply_found.
    + rewrite E. now split.
    + rewrite E. discriminate.
    + now rewrite E.
  - intros Hf _. rewrite chat_reply_none.
    + rewrite E. now split.
    + rewrite E. discriminate.
    + now rewrite E.
Qed.

Lemma chat_lists_what_search_shows_witness :
  reply_of (fst (chat example_env name_message_request example_world))
    = listing (search_results name_query_request example_world)
  /\ snd (chat example_env name_message_request example_world) = example_world.
Proof.
  apply (@chat_lists_what_search_shows example_env name_message_request
           name_query_request example_world); try reflexivity.
  - repeat constructor. intros [].
  - discriminate.
Defined.

(** X17.  The header [X-Requested-With] decides the form of the answer to
    a posted chat message and nothing else: with the exact value
    [XMLHttpRequest] the reply is the body, otherwise it is shown in the
    page [chatbot.html]; reply and world are the same in both cases. *)
Theorem chat_answer_form (e : env) (rq : request) (w : world) :
  req_method rq = POST ->
  (x_requested_with rq = Some (lit "XMLHttpRequest") ->
   chat e rq w = (Body (fst (chat_reply e rq w)), snd (chat_reply e rq w)))
  /\ (x_requested_with rq <> Some (lit "XMLHttpRequest") ->
      chat e rq w =
      (Render (lit "chatbot.html") (Reply (fst (chat_reply e rq w))),
       snd (chat_reply e rq w))).
Proof.
  intros Hm. unfold chat. rewrite Hm.
  destruct (chat_reply e rq w) as [reply w']. cbn [fst snd]. split.
  - intros ->. now rewrite str_eqb_refl.
  - intros Hx. destruct (x_requested_with rq) as [v|]; [|reflexivity].
    destruct (str_eqb v _) eqn:Ev; [|reflexivity].
    apply str_eqb_eq in Ev. subst v. now destruct Hx.
Qed.

Lemma chat_answer_form_witness :
  chat example_env xhr_request example_world
    = (Body (fst (chat_reply example_env xhr_request example_world)),
       snd (chat_reply example_env xhr_request example_world))
  /\ chat example_env page_request example_world
    = (Render (lit "chatbot.html")
         (Reply (fst (chat_reply example_env page_request example_world))),
       snd (chat_reply example_env page_request example_world)).
Proof.
  split.
  - apply (proj1 (@chat_answer_form example_env xhr_request example_world
                    eq_refl)). reflexivity.
  - apply (proj2 (@chat_answer_form example_env page_request example_world
                    eq_refl)). discriminate.
Defined.

(* ------------------------------------------------------------------ *)
(** ** Further properties: the answer of a report, labels on the line *)

Section AnswerFacts.

Lemma snoc_differs (A : Type) (l : list A) (x : A) : l ++ [x] <> l.
Proof.
  intros H. apply (f_equal (@length A)) in H.
  rewrite length_app in H. simpl in H. lia.
Qed.


End AnswerFacts.

(** X18.  The answer of a report tells whether a row was stored: the
    report redirects exactly when it changed the table, and then it
    redirects to [/search] and the table has one row more. *)
Theorem report_redirects_iff_stored (e : env) (rq : request) (w : world) :
  ((exists target, fst (report e rq w) = Redirect target)
   <-> items (snd (report e rq w)) <> items w)
  /\ ((exists target, fst (report e rq w) = Redirect target) ->
      fst (report e rq w) = Redirect (lit "/search")
      /\ length (items (snd (report e rq w))) = S (length (items w))).
Proof.
  destruct (report_decide e rq w)
    as [[Hi Hr] | (_ & _ & _ & _ & text & H)].
  - split; [split|].
    + intros [target Ht]. now destruct (Hr target).
    + intros Hne. now destruct Hne.
    + intros [target Ht]. now destruct (Hr target).
  - cbv zeta in H. destruct H as (_ & _ & _ & ->). cbn [fst snd items].
    unfold insert. split; [split|].
    + intros _. apply snoc_differs.
    + intros _. now eexists.
    + intros _. split; [reflexivity|]. rewrite length_app. simpl. lia.
Qed.

Lemma report_redirects_iff_stored_witness :
  fst (report example_env example_request initial) = Redirect (lit "/search")
  /\ length (items (snd (report example_env example_request initial))) = 1.
Proof.
  apply (proj2 (@report_redirects_iff_stored example_env example_request
                  initial)).
  exists (lit "/search"). reflexivity.
Defined.


